(** * AssistantEdit: schema-default extraction and the configuration form

    A shallow embedding of
    [workbench-app/src/components/Assistants/AssistantEdit.tsx]:
    the helper [extractDefaultsFromSchema] (with its inner functions
    [traverse] and [setDefault]) and the state handling of the
    [AssistantEdit] component ([handleChange], [restoreConfig], the two
    effects, the form callbacks and the [uiSchema] handed to the form).
    Part II settles the properties claimed by the specification, Part
    III adds further properties read off the code.

    Conventions of the embedding.
    - JSON documents are trees; a JS object is the list of its own
      properties in enumeration order (the order [for ... in] and the
      spread [{...x}] follow).  Parsed JSON never repeats a key.  A new
      property goes last; that JS moves integer-like keys to the front
      is not reproduced.
    - [undefined] is the [None] of an [option json].
    - Numbers are only ever tested for truthiness by this code; they are
      integers here.  Strings are sequences of one-byte characters.
    - Property reads ([prop], [assoc]) see own properties, the
      non-enumerable own [length] of arrays and strings included.  The
      names the code reads directly ([default], [properties], [$ref],
      [$defs]) and the names a [for ... in] hands out are never
      inherited ones.  The segments of a reference and of a path are
      arbitrary names: for references [walk_ref] tells where the chain
      of reads meets a member of [Object.prototype], and [visit_ref]
      follows it; for paths the assignment to the name [__proto__]
      (which runs the prototype setter) is outside the model, and the
      theorems that depend on it exclude that name.
    - [extractDefaultsFromSchema] mutates objects.  It is first given on
      trees ([setDefault], [traverse]), which is what its result is read
      as; [Store.setDefault] then gives [setDefault] on a store of
      objects with pointers, and [setDefault_simulation] shows that the
      two agree. *)

From Stdlib Require Import ZArith Lia Ascii DecimalString.
From stdpp Require Import base option list strings gmap.

(* ================================================================== *)
(** * Part I: definitions *)
(* ================================================================== *)

(** ** JSON values *)

#[warnings="-register-all"]
Inductive json : Type :=
  | JNull
  | JBool (b : bool)
  | JNum (n : Z)
  | JStr (s : string)
  | JArr (xs : list json)
  | JObj (kvs : list (string * json)).

(** A property path, as the [string[]] the traversal threads along. *)
Definition path := list string.

(** JS truthiness ([if (x)], [!x]) on JSON values. *)
Definition truthy (x : json) : bool :=
  match x with
  | JNull => false
  | JBool b => b
  | JNum n => negb (n =? 0)%Z
  | JStr s => negb (String.eqb s EmptyString)
  | JArr _ | JObj _ => true
  end.

(** Truthiness of a possibly [undefined] value. *)
Definition truthy_opt (x : option json) : bool :=
  match x with
  | Some v => truthy v
  | None => false
  end.

(** ** Objects as property lists *)

Fixpoint assoc {A : Type} (k : string) (kvs : list (string * A)) : option A :=
  match kvs with
  | [] => None
  | (k', v) :: rest => if String.eqb k k' then Some v else assoc k rest
  end.

(** [o[k] = v] on an ordinary object: an existing property keeps its
    place, a new one is added last.  This is also how an object literal
    and a spread define a property.  For the assignment there is one
    name for which it is not what the program does: on an object without
    an own property [__proto__], [o["__proto__"] = v] runs the setter
    inherited from [Object.prototype] and creates no property.  Objects
    with prototypes other than [Object.prototype] are not modelled;
    statements about [setDefault] that depend on the difference carry
    the hypothesis that no path segment is [__proto__]. *)
Fixpoint set_prop {A : Type} (k : string) (v : A) (kvs : list (string * A))
  : list (string * A) :=
  match kvs with
  | [] => [(k, v)]
  | (k', v') :: rest =>
      if String.eqb k k' then (k, v) :: rest else (k', v') :: set_prop k v rest
  end.

Definition string_of_nat (n : nat) : string :=
  NilEmpty.string_of_uint (Nat.to_uint n).

Definition index_keys (n : nat) : list string :=
  map string_of_nat (seq 0 n).

Fixpoint chars (s : string) : list json :=
  match s with
  | EmptyString => []
  | String c rest => JStr (String c EmptyString) :: chars rest
  end.

(** The own enumerable string-keyed properties of a value: what
    [for (const key in x)] walks and what [{ ...x }] copies. *)
Definition entries (x : json) : list (string * json) :=
  match x with
  | JObj kvs => kvs
  | JArr xs => zip (index_keys (length xs)) xs
  | JStr s => zip (index_keys (String.length s)) (chars s)
  | JNull | JBool _ | JNum _ => []
  end.

Definition keys (x : json) : list string := map fst (entries x).

(** The object literal [{ ...x }]. *)
Definition spread (x : json) : list (string * json) := entries x.

(** Property read [x[k]] / [x.k] on a value that is neither [null] nor
    [undefined] (on those the read throws; see [traverse]), as far as
    own properties go.  For a name that no built-in prototype has this
    is the whole read; the reads of a reference are refined by
    [walk_ref]. *)
Definition prop (x : json) (k : string) : option json :=
  match x with
  | JArr xs =>
      if String.eqb k "length" then Some (JNum (Z.of_nat (length xs)))
      else assoc k (entries x)
  | JStr s =>
      if String.eqb k "length" then Some (JNum (Z.of_nat (String.length s)))
      else assoc k (entries x)
  | _ => assoc k (entries x)
  end.

(** Optional chaining [acc?.[key]], as far as own properties go. *)
Definition opt_index (acc : option json) (key : string) : option json :=
  match acc with
  | None | Some JNull => None
  | Some x => prop x key
  end.

(** ** Reference strings *)

Fixpoint strip_prefix (p s : string) : option string :=
  match p, s with
  | EmptyString, _ => Some s
  | String a p', String b s' =>
      if Ascii.eqb a b then strip_prefix p' s' else None
  | String _ _, EmptyString => None
  end.

(** [ref.replace(/^#\/\$defs\//, '')] *)
Definition replace_defs_prefix (ref : string) : string :=
  default ref (strip_prefix "#/$defs/" ref).

(** [s.split(sep)] for a one-character separator; never the empty list. *)
Fixpoint split_on (sep : ascii) (s : string) : list string :=
  match s with
  | EmptyString => [EmptyString]
  | String c rest =>
      if Ascii.eqb c sep then EmptyString :: split_on sep rest
      else match split_on sep rest with
           | h :: t => String c h :: t
           | [] => [String c EmptyString]
           end
  end.

Definition refPath (ref : string) : list string :=
  split_on "/"%char (replace_defs_prefix ref).

(** [refPath.reduce((acc, key) => acc?.[key], rootSchema.$defs)], as far
    as own properties go: the value found when every read finds an own
    property, [None] otherwise. *)
Definition resolve_ref (ref : string) (rootSchema : json) : option json :=
  fold_left opt_index (refPath ref) (prop rootSchema "$defs").

(** The names every value other than [null] and [undefined] inherits
    from [Object.prototype] (possibly overridden further down the
    prototype chain): all are functions, except the accessor
    [__proto__], which reads as the prototype object. *)
Definition object_prototype_names : list string :=
  ["constructor"; "__defineGetter__"; "__defineSetter__"; "hasOwnProperty";
   "__lookupGetter__"; "__lookupSetter__"; "isPrototypeOf";
   "propertyIsEnumerable"; "toString"; "valueOf"; "__proto__";
   "toLocaleString"].

(** Where the chain of reads [acc?.[k1]?.[k2]...] ends. *)
Inductive chain_end : Type :=
  | Own (x : option json)
      (* every read found an own property, or the chain ran into
         [undefined] or [null]: [x] is the value of the chain *)
  | Inherited
      (* the last read found no own property but a member of
         [Object.prototype]: the value is that function or, for
         [__proto__], the prototype object *)
  | Unmodelled.
      (* the chain reads on from an inherited member, or reads off an
         array, string, number or boolean a name that is not its own and
         not one of [Object.prototype]: what the built-in library holds
         there is not part of the model *)

Fixpoint walk_ref (ks : list string) (acc : option json) : chain_end :=
  match ks with
  | [] => Own acc
  | k :: ks' =>
      match acc with
      | None | Some JNull => Own None
      | Some x =>
          match prop x k with
          | Some y => walk_ref ks' (Some y)
          | None =>
              if bool_decide (k ∈ object_prototype_names) then
                match ks' with
                | [] => Inherited
                | _ :: _ => Unmodelled
                end
              else
                match x with
                | JObj _ => Own None
                | _ => Unmodelled
                end
          end
      end
  end.

(** The reference [ref] stays within what the model knows. *)
Definition modelled_ref (ref : string) (rootSchema : json) : Prop :=
  walk_ref (refPath ref) (prop rootSchema "$defs") ≠ Unmodelled.

(** ** Outcomes of running a piece of the program *)

Inductive js_error : Type :=
  | TypeError (msg : string).

Inductive outcome (A : Type) : Type :=
  | Done (a : A)          (* ran to completion *)
  | Threw (e : js_error)  (* an exception escaped *)
  | OutOfFuel.            (* the step budget of the model ran out *)
Arguments Done {A} a.
Arguments Threw {A} e.
Arguments OutOfFuel {A}.

Definition bind {A B : Type} (m : outcome A) (f : A -> outcome B) : outcome B :=
  match m with
  | Done a => f a
  | Threw e => Threw e
  | OutOfFuel => OutOfFuel
  end.

Notation "'let*' x ':=' m 'in' k" := (bind m (fun x => k))
  (at level 10, x name, m at level 100, k at level 200).

(** The mutable surroundings of [traverse]: the [defaults] object closed
    over by the two inner functions and the lines sent to
    [console.error]. *)
Record env : Type := Env {
  defaults : list (string * json);
  console : list string;
}.

(** ** [setDefault] *)

(** [setDefault(obj, path, value)] on the property list of [obj].  Every
    intermediate level is replaced by a new object ([{}] when the slot is
    falsy, a spread copy otherwise) and the walk goes on inside it; the
    last segment receives [value].  With an empty path the loop does not
    run and the write goes to [path[-1]], that is to the key
    ["undefined"]. *)
Fixpoint setDefault (obj : list (string * json)) (p : path) (value : json)
  : list (string * json) :=
  match p with
  | [] => set_prop "undefined" value obj
  | [k] => set_prop k value obj
  | k :: rest =>
      let current :=
        if truthy_opt (assoc k obj) then spread (default JNull (assoc k obj))
        else [] in
      set_prop k (JObj (setDefault current rest value)) obj
  end.

Definition write_default (p : path) (value : json) (e : env) : env :=
  Env (setDefault (defaults e) p value) (console e).

Definition console_error (line : string) (e : env) : env :=
  Env (defaults e) (console e ++ [line]).

(** ** [traverse] *)

(** The [for (const key in props)] loop with an early exit when the body
    throws. *)
Fixpoint for_in (body : string -> env -> outcome env) (ks : list string)
  (e : env) : outcome env :=
  match ks with
  | [] => Done e
  | k :: rest => let* e' := body k e in for_in body rest e'
  end.

Definition not_found (ref : string) : string :=
  "Reference not found: " +:+ ref.

(** The three statements of the body of [traverse]; [self] stands for
    the recursive call with [rootSchema] passed along unchanged. *)

(** [if (schema.default !== undefined) setDefault(defaults, path, schema.default)] *)
Definition own_default (schema : json) (p : path) (e : env) : env :=
  match prop schema "default" with
  | Some d => write_default p d e
  | None => e
  end.

(** [if (schema.properties) for (const key in schema.properties)
       traverse(schema.properties[key], [...path, key], rootSchema)] *)
Definition visit_properties (self : option json -> path -> env -> outcome env)
  (schema : json) (p : path) (e : env) : outcome env :=
  match prop schema "properties" with
  | Some props =>
      if truthy props then
        for_in (fun key => self (prop props key) (p ++ [key])) (keys props) e
      else Done e
  | None => Done e
  end.

(** [if (schema.$ref) { ... }]: resolve against [rootSchema.$defs], recurse
    with the same path when the target is truthy, report it otherwise.
    A truthy [$ref] that is not a string has no [replace] method.
    ([rootSchema] is the schema the traversal started at, hence never
    [null]: reading [$defs] off it does not throw.)

    When the reads find no truthy value among own properties but end at
    a member inherited from [Object.prototype], [refSchema] is that
    function (or prototype object): it is truthy, so nothing is
    reported, and the call [traverse(refSchema, ...)] finds no
    [default], [properties] or [$ref] on it and returns.  A reference
    that is [Unmodelled] is treated like one that resolves to nothing;
    statements about what is reported exclude it ([modelled_ref]).
    [no_own_target] is the branch taken when own properties lead to no
    truthy value. *)
Definition no_own_target (r : string) (rootSchema : json) (e : env) : env :=
  match walk_ref (refPath r) (prop rootSchema "$defs") with
  | Inherited => e
  | _ => console_error (not_found r) e
  end.

(** What that branch sends to [console.error]. *)
Definition report_lines (r : string) (rootSchema : json) : list string :=
  match walk_ref (refPath r) (prop rootSchema "$defs") with
  | Inherited => []
  | _ => [not_found r]
  end.

Definition visit_ref (self : option json -> path -> env -> outcome env)
  (schema : json) (p : path) (rootSchema : json) (e : env) : outcome env :=
  match prop schema "$ref" with
  | Some ref =>
      if truthy ref then
        match ref with
        | JStr r =>
            let refSchema := resolve_ref r rootSchema in
            if truthy_opt refSchema then self refSchema p e
            else Done (no_own_target r rootSchema e)
        | _ => Threw (TypeError "schema.$ref.replace is not a function")
        end
      else Done e
  | None => Done e
  end.

(** [traverse(schema, path, rootSchema)].  The recursion follows
    properties and resolved references, so it is metered by [fuel]: one
    unit per call.  [schema] is [None] for [undefined]; reading
    [schema.default] off [undefined] or [null] throws. *)
Fixpoint traverse (fuel : nat) (schema : option json) (p : path)
  (rootSchema : json) (e : env) : outcome env :=
  match fuel with
  | O => OutOfFuel
  | S fuel' =>
      match schema with
      | None => Threw (TypeError "Cannot read properties of undefined")
      | Some JNull => Threw (TypeError "Cannot read properties of null")
      | Some schema =>
          let self := fun s q => traverse fuel' s q rootSchema in
          let* e2 := visit_properties self schema p (own_default schema p e) in
          visit_ref self schema p rootSchema e2
      end
  end.

(** [extractDefaultsFromSchema(schema)]: a fresh [defaults = {}], one
    [traverse(schema)] with [path = []] and [rootSchema = schema]. *)
Definition run_extraction (fuel : nat) (schema : json) : outcome env :=
  traverse fuel (Some schema) [] schema (Env [] []).

Definition extractDefaultsFromSchema (fuel : nat) (schema : json)
  : outcome json :=
  let* e := run_extraction fuel schema in Done (JObj (defaults e)).

(** The [defaults] value of the component (the [useMemo] around the
    extraction): [{}] when the schema is missing or falsy. *)
Definition memo_defaults (fuel : nat) (jsonSchema : option json)
  : outcome json :=
  match jsonSchema with
  | Some schema =>
      if truthy schema then extractDefaultsFromSchema fuel schema
      else Done (JObj [])
  | None => Done (JObj [])
  end.

(** ** Reading a document along a path *)

(** The value found by following [p] through nested plain objects. *)
Fixpoint get_at (x : json) (p : path) : option json :=
  match p with
  | [] => Some x
  | k :: rest =>
      match x with
      | JObj kvs =>
          match assoc k kvs with
          | Some c => get_at c rest
          | None => None
          end
      | _ => None
      end
  end.

(** Two paths are unrelated when neither leads through the other. *)
Definition unrelated (p q : path) : Prop :=
  ¬ p `prefix_of` q ∧ ¬ q `prefix_of` p.

(** A sequence of [setDefault] calls, oldest first. *)
Definition replay (ws : list (path * json)) (obj : list (string * json))
  : list (string * json) :=
  fold_left (fun o w => setDefault o w.1 w.2) ws obj.

(** ** The schema graph *)

(** [visits rootSchema s c]: a call [traverse(s, _, rootSchema)] that gets
    that far makes the recursive call [traverse(c, _, rootSchema)],
    either for one of the [properties] of [s] or for the target of its
    [$ref]. *)
Inductive visits (rootSchema : json) (s : json) : json -> Prop :=
  | visits_property props key c :
      prop s "properties" = Some props ->
      truthy props = true ->
      key ∈ keys props ->
      prop props key = Some c ->
      visits rootSchema s c
  | visits_ref r t :
      prop s "$ref" = Some (JStr r) ->
      truthy (JStr r) = true ->
      resolve_ref r rootSchema = Some t ->
      truthy t = true ->
      visits rootSchema s t.

(** No reference cycle below [s]: every chain of recursive calls that
    starts at [s] is finite. *)
Definition acyclic (rootSchema s : json) : Prop :=
  Acc (fun c s' => visits rootSchema s' c) s.

(** A node that the traversal reaches from [s] and, from there, reaches
    again: a cycle of recursive calls.  Calls for properties go to
    strictly smaller parts of the schema, so every cycle leads through a
    [$ref]. *)
Definition has_cycle (rootSchema s : json) : Prop :=
  ∃ c, rtc (visits rootSchema) s c ∧ tc (visits rootSchema) c c.

(** Whether a property name starts like an array index (the empty name
    counts as one here). *)
Definition starts_with_digit (k : string) : bool :=
  match k with
  | String c _ => (48 <=? nat_of_ascii c) && (nat_of_ascii c <=? 57)
  | EmptyString => true
  end.

(** A document and everything nested in it. *)
Fixpoint subterms (x : json) : list json :=
  x :: match x with
       | JArr xs => flat_map subterms xs
       | JObj kvs => flat_map (fun kv => subterms kv.2) kvs
       | _ => []
       end.

(** Where the traversal of [s] can lead: the parts of [s] and of the root
    schema. *)
Definition universe (rootSchema s : json) : list json :=
  subterms s ++ subterms rootSchema.

(** Numbers and strings: what reading [length] or a character yields. *)
Definition atom (x : json) : Prop :=
  match x with
  | JNum _ | JStr _ => True
  | _ => False
  end.

(** A node that [traverse] can process without a [TypeError]: it is not
    [null] and a truthy [$ref] is a string. *)
Definition well_shaped_node (s : json) : Prop :=
  s ≠ JNull ∧
  ∀ ref, prop s "$ref" = Some ref -> truthy ref = true -> ∃ r, ref = JStr r.

(** Every node the traversal can reach from [s] is well shaped. *)
Definition well_shaped (rootSchema s : json) : Prop :=
  ∀ c, rtc (visits rootSchema) s c -> well_shaped_node c.

(** [declares rootSchema s p q d]: visiting [s] at path [p], the schema
    declares the default [d] at path [q], on [s] itself, below one of its
    properties or through a resolvable reference. *)
Inductive declares (rootSchema : json) : json -> path -> path -> json -> Prop :=
  | declares_here s p d :
      prop s "default" = Some d ->
      declares rootSchema s p p d
  | declares_property s p props key c q d :
      prop s "properties" = Some props ->
      truthy props = true ->
      key ∈ keys props ->
      prop props key = Some c ->
      declares rootSchema c (p ++ [key]) q d ->
      declares rootSchema s p q d
  | declares_ref s p r t q d :
      prop s "$ref" = Some (JStr r) ->
      truthy (JStr r) = true ->
      resolve_ref r rootSchema = Some t ->
      truthy t = true ->
      declares rootSchema t p q d ->
      declares rootSchema s p q d.

(** ** Auxiliary notions for [setDefault] and the traversal *)

(** The object the walk of [setDefault] continues in below key [k]. *)
Definition descend (obj : list (string * json)) (k : string)
  : list (string * json) :=
  if truthy_opt (assoc k obj) then spread (default JNull (assoc k obj)) else [].



(** The recursive calls a visit of [s] makes, in order. *)
Definition children (rootSchema s : json) : list json :=
  (match prop s "properties" with
   | Some props => if truthy props then omap (prop props) (keys props) else []
   | None => []
   end) ++
  (match prop s "$ref" with
   | Some (JStr r) =>
       if truthy (JStr r) then
         match resolve_ref r rootSchema with
         | Some t => if truthy t then [t] else []
         | None => []
         end
       else []
   | _ => []
   end).

Definition well_shaped_nodeb (s : json) : bool :=
  match s with
  | JNull => false
  | _ =>
      match prop s "$ref" with
      | Some (JStr _) | None => true
      | Some ref => negb (truthy ref)
      end
  end.

(** [checked n rootSchema s]: every chain of recursive calls from [s] has
    fewer than [n] links and meets well-shaped nodes only. *)
Fixpoint checked (n : nat) (rootSchema s : json) : bool :=
  match n with
  | O => false
  | S n' => well_shaped_nodeb s && forallb (checked n' rootSchema) (children rootSchema s)
  end.

(** The defaults a visit of [s] at path [p] declares, in the order the
    traversal meets them; [n] bounds the depth explored. *)
Fixpoint declared (n : nat) (rootSchema s : json) (p : path)
  : list (path * json) :=
  match n with
  | O => []
  | S n' =>
      (match prop s "default" with Some d => [(p, d)] | None => [] end) ++
      (match prop s "properties" with
       | Some props =>
           if truthy props then
             flat_map (fun key =>
                         match prop props key with
                         | Some c => declared n' rootSchema c (p ++ [key])
                         | None => []
                         end) (keys props)
           else []
       | None => []
       end) ++
      (match prop s "$ref" with
       | Some (JStr r) =>
           if truthy (JStr r) then
             match resolve_ref r rootSchema with
             | Some t => if truthy t then declared n' rootSchema t p else []
             | None => []
             end
           else []
       | _ => []
       end)
  end.

(** The scenario schema of the specification:
    [{ properties: { x: { default: 1 }, y: { $ref: "#/$defs/Y" } },
       $defs: { Y: { default: 2 } } }]. *)
Definition scenario_schema : json :=
  JObj [("properties",
          JObj [("x", JObj [("default", JNum 1)]);
                ("y", JObj [("$ref", JStr "#/$defs/Y")])]);
        ("$defs", JObj [("Y", JObj [("default", JNum 2)])])].




(** A node whose property [k] declares [a] while the definition it
    refers to declares [b] for the same property:
    [{ properties: { k: { default: a } }, $ref: "#/$defs/T",
       $defs: { T: { properties: { k: { default: b } } } } }]. *)
Definition conflict_schema (k : string) (a b : json) : json :=
  JObj [("properties", JObj [(k, JObj [("default", a)])]);
        ("$ref", JStr "#/$defs/T");
        ("$defs",
          JObj [("T", JObj [("properties", JObj [(k, JObj [("default", b)])])])])].




(** A schema with a sibling default next to a reference that resolves to
    nothing:
    [{ properties: { a: { default: 1 }, b: { $ref: "#/$defs/Missing" },
                     c: { default: 3 } } }]. *)
Definition dangling_schema : json :=
  JObj [("properties",
          JObj [("a", JObj [("default", JNum 1)]);
                ("b", JObj [("$ref", JStr "#/$defs/Missing")]);
                ("c", JObj [("default", JNum 3)])])].

(** The root-default property in its unrestricted form: whenever the
    root declares [d], every returned document maps ["undefined"] to
    [d]. *)
Definition root_default_unrestricted (schema : json) : Prop :=
  ∀ d n doc,
    prop schema "default" = Some d ->
    extractDefaultsFromSchema n schema = Done (JObj doc) ->
    assoc "undefined" doc = Some d.

(** A root default next to a root property that is itself named
    ["undefined"]:
    [{ default: 1, properties: { undefined: { default: 2 } } }]. *)
Definition undefined_property_schema : json :=
  JObj [("default", JNum 1);
        ("properties", JObj [("undefined", JObj [("default", JNum 2)])])].

(** A schema whose root declares a default and one more below it:
    [{ default: 7, properties: { a: { default: 1 } } }]. *)
Definition root_default_schema : json :=
  JObj [("default", JNum 7);
        ("properties", JObj [("a", JObj [("default", JNum 1)])])].

(** Number of constructors of a document. *)
Fixpoint json_size (x : json) : nat :=
  match x with
  | JArr xs => S (list_sum (map json_size xs))
  | JObj kvs => S (list_sum (map (fun kv => json_size kv.2) kvs))
  | _ => 1
  end.

(** ** [setDefault] on a store of objects

    [setDefault] assigns into objects, and the [value] it stores is the
    very object found in the schema.  To speak about what a write can and
    cannot change, objects live in a store here and values may point into
    it. *)

Module Store.

Definition loc := positive.

Inductive value : Type :=
  | VNull
  | VBool (b : bool)
  | VNum (n : Z)
  | VStr (s : string)
  | VRef (l : loc).

(** A stored object: an ordinary object with its properties, or an
    array with its elements. *)
Inductive cell : Type :=
  | Plain (props : list (string * value))
  | Array (elems : list value).

Abbreviation heap := (gmap loc cell).

Definition cell_values (c : cell) : list value :=
  match c with
  | Plain props => map snd props
  | Array elems => elems
  end.

Definition truthy (v : value) : bool :=
  match v with
  | VNull => false
  | VBool b => b
  | VNum n => negb (n =? 0)%Z
  | VStr s => negb (String.eqb s EmptyString)
  | VRef _ => true
  end.

Definition truthy_opt (v : option value) : bool :=
  match v with
  | Some v => truthy v
  | None => false
  end.

Fixpoint chars (s : string) : list value :=
  match s with
  | EmptyString => []
  | String c rest => VStr (String c EmptyString) :: chars rest
  end.

(** Own enumerable properties, as [for ... in] and spread see them. *)
Definition entries (h : heap) (v : value) : list (string * value) :=
  match v with
  | VRef l =>
      match h !! l with
      | Some (Plain props) => props
      | Some (Array elems) => zip (index_keys (length elems)) elems
      | None => []
      end
  | VStr s => zip (index_keys (String.length s)) (chars s)
  | VNull | VBool _ | VNum _ => []
  end.

(** [current[k]] for the ordinary object at [current]. *)
Definition load (h : heap) (current : loc) (k : string) : option value :=
  match h !! current with
  | Some (Plain props) => assoc k props
  | _ => None
  end.

(** [current[k] = v] for the ordinary object at [current]; as for
    [set_prop], the assignment to the name [__proto__] is outside the
    model. *)
Definition store (h : heap) (current : loc) (k : string) (v : value) : heap :=
  match h !! current with
  | Some (Plain props) => <[current := Plain (set_prop k v props)]> h
  | _ => h
  end.

(** A new object, at a location not in use. *)
Definition alloc (h : heap) (c : cell) : loc * heap :=
  let l := fresh (dom h) in (l, <[l := c]> h).

(** [setDefault(obj, path, value)] with [obj] the object at [current]:
    for every segment but the last, a new object ([{}], or the spread
    of what the slot holds) is allocated, assigned to the slot and made
    [current]; the last segment is assigned [value]. *)
Fixpoint setDefault (h : heap) (current : loc) (p : path) (v : value) : heap :=
  match p with
  | [] => store h current "undefined" v
  | [k] => store h current k v
  | k :: rest =>
      let old := load h current k in
      let fresh_cell :=
        Plain (if truthy_opt old then entries h (default VNull old) else []) in
      let '(l, h1) := alloc h fresh_cell in
      let h2 := store h1 current k (VRef l) in
      setDefault h2 l rest v
  end.

(** The document a value stands for, read to depth [n]. *)
Fixpoint reify (n : nat) (h : heap) (v : value) : option json :=
  match v with
  | VNull => Some JNull
  | VBool b => Some (JBool b)
  | VNum z => Some (JNum z)
  | VStr s => Some (JStr s)
  | VRef l =>
      match n with
      | O => None
      | S n' =>
          match h !! l with
          | Some (Plain props) =>
              JObj <$> mapM (fun kv => pair kv.1 <$> reify n' h kv.2) props
          | Some (Array elems) => JArr <$> mapM (reify n' h) elems
          | None => None
          end
      end
  end.

Definition reify_props (n : nat) (h : heap) (props : list (string * value))
  : option (list (string * json)) :=
  mapM (fun kv => pair kv.1 <$> reify n h kv.2) props.

(** The value found by following [q] from [x] through own enumerable
    properties. *)
Fixpoint lookup_path (h : heap) (x : value) (q : path) : option value :=
  match q with
  | [] => Some x
  | k :: rest =>
      match assoc k (entries h x) with
      | Some c => lookup_path h c rest
      | None => None
      end
  end.

(** [reaches h v l]: the object at [l] is [v] or lies below it. *)
Inductive reaches (h : heap) : value -> loc -> Prop :=
  | reaches_here l : reaches h (VRef l) l
  | reaches_below l c x l' :
      h !! l = Some c -> x ∈ cell_values c -> reaches h x l' ->
      reaches h (VRef l) l'.

#[global] Instance value_eq_dec : EqDecision value.
Proof. solve_decision. Defined.

(** No stored object holds a pointer to [l]. *)
Definition unreferenced (h : heap) (l : loc) : Prop :=
  map_Forall (fun _ c => Forall (fun x => x ≠ VRef l) (cell_values c)) h.

(** A small store: the document [{ a: { c: 1 } }] at location 1, its
    inner object at 2, and an object of the schema, the default
    [{ x: 5 }], at 3. *)
Definition sample_heap : heap :=
  <[1%positive := Plain [("a", VRef 2%positive)]]>
    (<[2%positive := Plain [("c", VNum 1)]]>
       (<[3%positive := Plain [("x", VNum 5)]]> ∅)).

End Store.

(** ** Structural comparison of documents *)

Section comparison.
Context {A : Type} (eqb : A -> A -> bool).

(** Element-wise comparison of two arrays. *)
Fixpoint all2 (l r : list A) : bool :=
  match l, r with
  | [], [] => true
  | x :: l', y :: r' => eqb x y && all2 l' r'
  | _, _ => false
  end.

(** Every property of [l] whose key was not met before ([seen]) has an
    equal value under the same key in [other]. *)
Fixpoint covers (other : list (string * A)) (seen : list string)
  (l : list (string * A)) : bool :=
  match l with
  | [] => true
  | (k, v) :: l' =>
      (if bool_decide (k ∈ seen) then true
       else match assoc k other with
            | Some w => eqb v w
            | None => false
            end)
      && covers other (k :: seen) l'
  end.
End comparison.

(** Structural equality, recursive through arrays and nested mappings;
    mappings are compared key by key, whatever the order of the keys. *)
Fixpoint struct_eqb (a b : json) {struct a} : bool :=
  match a, b with
  | JNull, JNull => true
  | JBool x, JBool y => Bool.eqb x y
  | JNum x, JNum y => (x =? y)%Z
  | JStr x, JStr y => String.eqb x y
  | JArr xs, JArr ys => all2 struct_eqb xs ys
  | JObj kvs, JObj kvs' =>
      covers struct_eqb kvs' [] kvs
      && forallb (fun k => bool_decide (k ∈ map fst kvs)) (map fst kvs')
  | _, _ => false
  end.

Definition struct_eqb_opt (a b : option json) : bool :=
  match a, b with
  | Some x, Some y => struct_eqb x y
  | None, None => true
  | _, _ => false
  end.

(** Modelled from the spec: [Utility.deepDiff], whose source
    (libs/Utility) is missing.  "For every key present in either operand,
    if both values are structurally equal (recursively, for nested
    mappings) skip it, else record it as changed."  The result is given
    by the keys recorded, which is what [Object.keys(diff)] reads. *)
Definition deepDiff (a b : json) : list string :=
  filter (fun k => struct_eqb_opt (assoc k (entries a)) (assoc k (entries b)) = false)
    (keys a ++ filter (fun k => k ∉ keys a) (keys b)).

(** ** The [AssistantEdit] component *)

(** What [useGetConfigQuery] delivers as [data]: the saved configuration
    with its schema and UI hints. *)
Record AssistantConfig : Type := {
  config : option json;
  jsonSchema : option json;
  uiSchema : option json;
}.

(** The argument of one [updateConfig] call. *)
Record UpdateRequest : Type := {
  assistantId : string;
  body : AssistantConfig;
}.

(** Modelled from the spec: how an awaited [updateConfig] call ends.  The
    mutation trigger is defined in services/workbench, whose source is
    missing; the specification gives it as a request that returns the
    saved document or fails with a [RemoteSaveError].  The end of its
    promise is a parameter of [handleChange_resume]: [await] resumes
    [handleChange] after a fulfilment and leaves it by an exception after
    a rejection, which is how a failing request shows. *)
Inductive settled : Type :=
  | Fulfilled (result : json)
  | Rejected (reason : json).

(** State of one mounted component: the query result, the two [useState]
    cells and the [updateConfig] calls that have not settled yet. *)
Record State : Type := {
  assistant_id : string;
  data : option AssistantConfig;
  isLoadingConfig : bool;
  formData : option json;
  isDirty : bool;
  inFlight : list UpdateRequest;
}.

Definition init_state (id : string) : State :=
  {| assistant_id := id; data := None; isLoadingConfig := true;
     formData := None; isDirty := false; inFlight := [] |}.

Definition with_formData (v : option json) (st : State) : State :=
  {| assistant_id := assistant_id st; data := data st;
     isLoadingConfig := isLoadingConfig st; formData := v;
     isDirty := isDirty st; inFlight := inFlight st |}.

(** [setDirty(b)] *)
Definition setDirty (b : bool) (st : State) : State :=
  {| assistant_id := assistant_id st; data := data st;
     isLoadingConfig := isLoadingConfig st; formData := formData st;
     isDirty := b; inFlight := inFlight st |}.

Definition with_inFlight (rs : list UpdateRequest) (st : State) : State :=
  {| assistant_id := assistant_id st; data := data st;
     isLoadingConfig := isLoadingConfig st; formData := formData st;
     isDirty := isDirty st; inFlight := rs |}.

Definition with_data (c : AssistantConfig) (st : State) : State :=
  {| assistant_id := assistant_id st; data := Some c;
     isLoadingConfig := false; formData := formData st;
     isDirty := isDirty st; inFlight := inFlight st |}.

(** [config?.config] *)
Definition saved_config (st : State) : option json := data st ≫= config.

(** [Object.keys(diff).length > 0] *)
Definition has_changes (a b : json) : bool :=
  match deepDiff a b with
  | [] => false
  | _ :: _ => true
  end.

(** The effect on [[config, formData]]: when both documents are there,
    [isDirty] becomes "the diff has keys". *)
Definition dirty_effect (st : State) : State :=
  match saved_config st, formData st with
  | Some c, Some f =>
      if truthy c && truthy f then setDirty (has_changes c f) st else st
  | _, _ => st
  end.

(** [setFormData(v)]: React re-renders and runs the effect that depends
    on [formData], unless [v] is the very value the state holds, in which
    case nothing happens. *)
Inductive setFormData (v : option json) (st : State) : State -> Prop :=
  | setFormData_rerender :
      setFormData v st (dirty_effect (with_formData v st))
  | setFormData_bail_out :
      formData st = v -> setFormData v st st.

(** A result of the configuration query arrives: the effect on
    [[isLoadingConfig, config]] copies [config?.config] into the form,
    and the effect on [[config, formData]] runs for the render with the
    new [config] and again for the render with the new [formData]. *)
Definition load_result (c : AssistantConfig) (st : State) : State :=
  dirty_effect (with_formData (config c) (dirty_effect (with_data c st))).

(** The form is on screen (otherwise it is [<Loading />]). *)
Definition rendered (st : State) : Prop :=
  isLoadingConfig st = false ∧ is_Some (data st).

(** [handleChange(updatedConfig)] up to its [await]: nothing without a
    [config]; otherwise the form data is set and the request goes out. *)
Inductive handleChange (updatedConfig : option json) (st : State) : State -> Prop :=
  | handleChange_no_config :
      data st = None -> handleChange updatedConfig st st
  | handleChange_sent c st' :
      data st = Some c ->
      setFormData updatedConfig st st' ->
      handleChange updatedConfig st
        (with_inFlight
           (inFlight st' ++
              [{| assistantId := assistant_id st;
                  body := {| config := updatedConfig;
                             jsonSchema := jsonSchema c;
                             uiSchema := uiSchema c |} |}])
           st').

(** The rest of [handleChange], once the awaited request (the [i]-th in
    flight) has ended: [setDirty(false)] after a fulfilment, nothing
    after a rejection. *)
Definition handleChange_resume (i : nat) (o : settled) (st : State) : State :=
  let st' := with_inFlight (delete i (inFlight st)) st in
  match o with
  | Fulfilled _ => setDirty false st'
  | Rejected _ => st'
  end.

(** [formData ?? {}] *)
Definition form_or_empty (st : State) : json :=
  match formData st with
  | None | Some JNull => JObj []
  | Some f => f
  end.

(** A click on Save: [handleChange(formData ?? {})]. *)
Definition save (st st' : State) : Prop :=
  handleChange (Some (form_or_empty st)) st st'.

(** [restoreConfig(config)] *)
Definition restoreConfig (c : option json) (st st' : State) : Prop :=
  setFormData c st st'.

(** Modelled from the spec: the Reset button.  [ApplyConfigButton], whose
    source is missing, hands its [newConfig], here [config.config], to
    [onApply], here [restoreConfig]: "discards FormState, replaces it
    with the last-synced ConfigurationDocument". *)
Definition reset (st st' : State) : Prop :=
  restoreConfig (saved_config st) st st'.

(** The form's [onChange]: [setFormData(data.formData)]. *)
Definition onChange (newFormData : option json) (st st' : State) : Prop :=
  setFormData newFormData st st'.

(** What can happen to a mounted component. *)
Inductive step (st : State) : State -> Prop :=
  | step_query_result c :
      step st (load_result c st)
  | step_change v st' :
      rendered st -> onChange v st st' -> step st st'
  | step_save st' :
      rendered st -> isDirty st = true -> save st st' -> step st st'
  | step_submit v st' :
      rendered st -> handleChange v st st' -> step st st'
  | step_reset st' :
      rendered st -> reset st st' -> step st st'
  | step_load_defaults c fuel doc st' :
      rendered st -> data st = Some c ->
      memo_defaults fuel (jsonSchema c) = Done doc ->
      restoreConfig (Some doc) st st' -> step st st'
  | step_settled i o :
      i < length (inFlight st) -> step st (handleChange_resume i o st).

Definition reachable (st : State) : Prop :=
  ∃ id, rtc step (init_state id) st.

(** [isDirty] is never stale-true: when both documents are there and the
    flag is up, they do differ. *)
Definition consistent (st : State) : Prop :=
  ∀ c f, saved_config st = Some c -> formData st = Some f ->
    truthy c = true -> truthy f = true -> isDirty st = true ->
    has_changes c f = true.

(** The failing-save property in its unrestricted form: whenever Save
    is clicked on a dirty form and the request fails (its promise
    rejects), form data and flag are what they were before the click. *)
Definition failed_save_is_atomic : Prop :=
  ∀ st st1 i reason,
    reachable st -> rendered st -> isDirty st = true ->
    save st st1 ->
    formData (handleChange_resume i (Rejected reason) st1) = formData st ∧
    isDirty (handleChange_resume i (Rejected reason) st1) = true.

(** At most one [updateConfig] call is ever awaiting its result. *)
Definition single_save_in_flight : Prop :=
  ∀ st, reachable st -> length (inFlight st) <= 1.

(** A saved configuration [{ x: 1 }] with the scenario schema. *)
Definition sample_config : AssistantConfig :=
  {| config := Some (JObj [("x", JNum 1)]);
     jsonSchema := Some scenario_schema;
     uiSchema := None |}.

Definition loaded_state : State :=
  load_result sample_config (init_state "assistant-1").

(** The form after the edit [{ x: 2 }]. *)
Definition edited_state : State :=
  dirty_effect (with_formData (Some (JObj [("x", JNum 2)])) loaded_state).


(** ** Reference strings, written out *)

(** Whether the character [sep] occurs in [s]. *)
Fixpoint occurs (sep : ascii) (s : string) : bool :=
  match s with
  | EmptyString => false
  | String c rest => if Ascii.eqb c sep then true else occurs sep rest
  end.

(** The reference [#/$defs/k1/.../kn] naming the segments [ks]. *)
Definition defs_pointer (ks : list string) : string :=
  "#/$defs/" +:+ String.concat "/" ks.

(** ** What the traversal reports *)

(** [line] is the report of a reference that does not resolve, made for
    a node the traversal reaches from [s]: the reads of the reference
    end, through own properties, in nothing or in a falsy value. *)
Definition reports_unresolved (rootSchema s : json) (line : string) : Prop :=
  ∃ c r x, rtc (visits rootSchema) s c ∧
           prop c "$ref" = Some (JStr r) ∧ truthy (JStr r) = true ∧
           walk_ref (refPath r) (prop rootSchema "$defs") = Own x ∧
           truthy_opt x = false ∧
           line = not_found r.

(** Every reference the traversal meets from [s] stays within what the
    model knows. *)
Definition modelled_refs (rootSchema s : json) : Prop :=
  ∀ c r, rtc (visits rootSchema) s c ->
    prop c "$ref" = Some (JStr r) -> truthy (JStr r) = true ->
    modelled_ref r rootSchema.

(** The lines a visit of [s] sends to [console.error], in order; [n]
    bounds the depth explored. *)
Fixpoint reported (n : nat) (rootSchema s : json) : list string :=
  match n with
  | O => []
  | S n' =>
      (match prop s "properties" with
       | Some props =>
           if truthy props then
             flat_map (fun key =>
                         match prop props key with
                         | Some c => reported n' rootSchema c
                         | None => []
                         end) (keys props)
           else []
       | None => []
       end) ++
      (match prop s "$ref" with
       | Some (JStr r) =>
           if truthy (JStr r) then
             match resolve_ref r rootSchema with
             | Some t => if truthy t then reported n' rootSchema t
                         else report_lines r rootSchema
             | None => report_lines r rootSchema
             end
           else []
       | _ => []
       end)
  end.

(** The keywords [traverse] reads off a node, and the one it reads off
    the root schema. *)
Definition node_keywords : list string := ["default"; "properties"; "$ref"].
Definition read_keywords : list string := node_keywords ++ ["$defs"].

(** The schema [s] with the property [k] of one of its nodes set to [v]:
    the node found from [s] by going, for each name in [ps], into the
    [properties] of the node and to the property of that name.  A schema
    that has no such node is left as it is. *)
Fixpoint update_node (ps : path) (k : string) (v : json) (s : json) : json :=
  match ps, s with
  | [], JObj kvs => JObj (set_prop k v kvs)
  | key :: ps', JObj kvs =>
      match assoc "properties" kvs with
      | Some (JObj props) =>
          match assoc key props with
          | Some c =>
              JObj (set_prop "properties"
                      (JObj (set_prop key (update_node ps' k v c) props)) kvs)
          | None => s
          end
      | _ => s
      end
  | _, _ => s
  end.

(** ** The UI hints handed to the form *)

(** Copying the properties [src] into an object under construction: what
    a spread inside an object literal does. *)
Definition assign (target src : list (string * json)) : list (string * json) :=
  fold_left (fun o kv => set_prop kv.1 kv.2 o) src target.

Definition default_title : json := JStr "Update the assistant configuration".

(** [{ norender: true, submitText: 'Save',
       props: { disabled: isDirty === false } }] *)
Definition submitButtonOptions (dirty : bool) : json :=
  JObj [("norender", JBool true);
        ("submitText", JStr "Save");
        ("props", JObj [("disabled", JBool (Bool.eqb dirty false))])].

(** The [uiSchema] attribute of the form:
    [{ 'ui:title': ..., ...config.uiSchema, 'ui:submitButtonOptions': ... }].
    [service_hints] is what [...config.uiSchema] copies; spreading
    [undefined] or [null] copies nothing. *)
Definition service_hints (c : AssistantConfig) : list (string * json) :=
  match uiSchema c with
  | Some u => spread u
  | None => []
  end.

Definition form_uiSchema (c : AssistantConfig) (dirty : bool)
  : list (string * json) :=
  set_prop "ui:submitButtonOptions" (submitButtonOptions dirty)
    (assign [("ui:title", default_title)] (service_hints c)).

(** The request [handleChange(updatedConfig)] sends when [c] is loaded:
    [{ assistantId: assistant.id, config: { ...config, config: updatedConfig } }]. *)
Definition update_request (st : State) (c : AssistantConfig)
  (updatedConfig : option json) : UpdateRequest :=
  {| assistantId := assistant_id st;
     body := {| config := updatedConfig;
                jsonSchema := jsonSchema c;
                uiSchema := uiSchema c |} |}.

(* ================================================================== *)
(** * Part II: theorems *)
(* ================================================================== *)

(** ** Property lists *)

Lemma assoc_set_prop_eq {A} k (v : A) kvs : assoc k (set_prop k v kvs) = Some v.
Proof.
  induction kvs as [|[k' v'] kvs IH]; simpl.
  - by rewrite String.eqb_refl.
  - destruct (String.eqb k k') eqn:E; simpl.
    + by rewrite String.eqb_refl.
    + by rewrite E.
Qed.

Lemma assoc_set_prop_ne {A} k k' (v : A) kvs :
  k ≠ k' -> assoc k' (set_prop k v kvs) = assoc k' kvs.
Proof.
  intros Hne. induction kvs as [|[k0 v0] kvs IH]; simpl.
  - destruct (String.eqb k' k) eqn:E; [|done].
    apply String.eqb_eq in E. congruence.
  - destruct (String.eqb k k0) eqn:E; simpl.
    + apply String.eqb_eq in E. subst k0.
      destruct (String.eqb k' k) eqn:E'; [|done].
      apply String.eqb_eq in E'. congruence.
    + by rewrite IH.
Qed.

Lemma assoc_Some_keys {A} k (v : A) kvs : assoc k kvs = Some v -> k ∈ map fst kvs.
Proof.
  induction kvs as [|[k' v'] kvs IH]; simpl; [done|].
  destruct (String.eqb k k') eqn:E.
  - apply String.eqb_eq in E. subst. intros _. left.
  - intros H. right. auto.
Qed.

Lemma keys_assoc_Some {A} k (kvs : list (string * A)) :
  k ∈ map fst kvs -> is_Some (assoc k kvs).
Proof.
  induction kvs as [|[k' v'] kvs IH]; simpl.
  - intros H. by apply elem_of_nil in H.
  - intros H. destruct (String.eqb k k') eqn:E; [by eexists|].
    apply elem_of_cons in H as [->|H]; [|auto].
    by rewrite String.eqb_refl in E.
Qed.

Lemma assoc_Some_elem {A} k (v : A) kvs : assoc k kvs = Some v -> (k, v) ∈ kvs.
Proof.
  induction kvs as [|[k' v'] kvs IH]; simpl; [done|].
  destruct (String.eqb k k') eqn:E.
  - apply String.eqb_eq in E. intros [= ->]. subst. left.
  - intros H. right. auto.
Qed.

Lemma json_nested_ind (P : json -> Prop) :
  P JNull -> (∀ b, P (JBool b)) -> (∀ n, P (JNum n)) -> (∀ s, P (JStr s)) ->
  (∀ xs, Forall P xs -> P (JArr xs)) ->
  (∀ kvs, Forall (fun kv => P kv.2) kvs -> P (JObj kvs)) ->
  ∀ x, P x.
Proof.
  intros Hnull Hbool Hnum Hstr Harr Hobj. fix IH 1.
  intros [|b|n|s|xs|kvs]; [done..| |].
  - apply Harr. induction xs as [|y xs IHxs]; constructor; [apply IH|apply IHxs].
  - apply Hobj. induction kvs as [|[k y] kvs IHkvs]; constructor; [apply IH|apply IHkvs].
Qed.

Lemma null_or_not (s : json) : s = JNull ∨ s ≠ JNull.
Proof. destruct s; (by left) || (by right). Qed.

(** ** The outcome monad and the loop *)

Lemma no_own_target_defaults r rootSchema e :
  defaults (no_own_target r rootSchema e) = defaults e.
Proof. unfold no_own_target. by destruct (walk_ref _ _). Qed.

Lemma bind_Done {A B} (m : outcome A) (f : A -> outcome B) b :
  bind m f = Done b -> ∃ a, m = Done a ∧ f a = Done b.
Proof. destruct m; simpl; [eauto|done..]. Qed.

Lemma for_in_app body ks1 ks2 e :
  for_in body (ks1 ++ ks2) e = let* e' := for_in body ks1 e in for_in body ks2 e'.
Proof.
  revert e. induction ks1 as [|k ks1 IH]; intros e; simpl; [done|].
  destruct (body k e); simpl; auto.
Qed.

Lemma for_in_ext body1 body2 ks e r :
  (∀ k e r, k ∈ ks -> body1 k e = r -> r ≠ OutOfFuel -> body2 k e = r) ->
  for_in body1 ks e = r -> r ≠ OutOfFuel -> for_in body2 ks e = r.
Proof.
  revert e. induction ks as [|k ks IH]; intros e Hb; simpl; [done|].
  intros Hr Hne.
  destruct (body1 k e) as [e'| |] eqn:E; simpl in Hr.
  - rewrite (Hb k e (Done e')); [|left|done|done]. simpl.
    apply IH; [|done|done]. intros k0 e0 r0 Hin. apply Hb. by right.
  - rewrite (Hb k e (Threw e0)); [done|left|done|done].
  - congruence.
Qed.

(** ** Fuel *)

Lemma traverse_unfold fuel s p rootSchema e :
  s ≠ JNull ->
  traverse (S fuel) (Some s) p rootSchema e =
    let* e2 := visit_properties (fun s q => traverse fuel s q rootSchema) s p
                 (own_default s p e) in
    visit_ref (fun s q => traverse fuel s q rootSchema) s p rootSchema e2.
Proof. intros Hs. by destruct s. Qed.

(** More fuel never changes an outcome other than [OutOfFuel]. *)
Lemma traverse_fuel_mono n m s p rootSchema e r :
  traverse n s p rootSchema e = r -> r ≠ OutOfFuel -> n <= m ->
  traverse m s p rootSchema e = r.
Proof.
  revert m s p e r. induction n as [|n IH]; intros m s p e r Hr Hne Hle.
  { simpl in Hr. congruence. }
  destruct m as [|m]; [lia|].
  destruct s as [s|]; [|done].
  destruct (null_or_not s) as [->|Hs]; [done|].
  rewrite traverse_unfold in Hr |- * by done.
  assert (Hself : ∀ s q e r, traverse n s q rootSchema e = r -> r ≠ OutOfFuel ->
                   traverse m s q rootSchema e = r).
  { intros. apply IH; [done|done|lia]. }
  set (e1 := own_default s p e) in *. clearbody e1.
  assert (Hprops : ∀ r2, visit_properties (fun s q => traverse n s q rootSchema) s p e1 = r2 ->
            r2 ≠ OutOfFuel ->
            visit_properties (fun s q => traverse m s q rootSchema) s p e1 = r2).
  { unfold visit_properties. intros r2.
    destruct (prop s "properties") as [props|]; [|done].
    destruct (truthy props); [|done].
    intros H1 H2. eapply for_in_ext; [|exact H1|exact H2].
    intros k e0 r0 _. apply Hself. }
  destruct (visit_properties (fun s q => traverse n s q rootSchema) s p e1)
    as [e2| |] eqn:E; simpl in Hr.
  - rewrite (Hprops (Done e2)) by done. simpl.
    unfold visit_ref in *.
    destruct (prop s "$ref") as [ref|]; [|done].
    destruct (truthy ref); [|done].
    destruct ref; try done.
    destruct (truthy_opt _); [|done]. by apply Hself.
  - by rewrite (Hprops (Threw e0)).
  - simpl in Hr. congruence.
Qed.

Lemma prop_keys_Some x k : k ∈ keys x -> is_Some (prop x k).
Proof.
  unfold keys, prop. intros Hk.
  destruct x; try by apply keys_assoc_Some.
  - destruct (String.eqb k "length"); [by eexists|by apply keys_assoc_Some].
  - destruct (String.eqb k "length"); [by eexists|by apply keys_assoc_Some].
Qed.

(** ** Termination *)

Section termination.
Variable rootSchema : json.

Lemma for_in_terminates props ks :
  (∀ key c, key ∈ ks -> prop props key = Some c ->
     ∃ N, ∀ n, N <= n -> ∀ p e, traverse n (Some c) p rootSchema e ≠ OutOfFuel) ->
  ∃ N, ∀ n, N <= n -> ∀ p e,
    for_in (fun key => traverse n (prop props key) (p ++ [key]) rootSchema) ks e
        ≠ OutOfFuel.
Proof.
  induction ks as [|k ks IH]; intros Hc.
  { exists 0. by intros. }
  destruct IH as [N1 HN1].
  { intros key c Hin. apply Hc. by right. }
  assert (∃ N0, ∀ n, N0 <= n -> ∀ p e,
            traverse n (prop props k) p rootSchema e ≠ OutOfFuel) as [N0 HN0].
  { destruct (prop props k) as [c|] eqn:E.
    - destruct (Hc k c) as [N HN]; [left|done|]. exists N. intros. by apply HN.
    - exists 1. intros n Hn p e. by destruct n; [lia|]. }
  exists (N0 `max` N1). intros n Hn p e. simpl.
  destruct (traverse n (prop props k) (p ++ [k]) rootSchema e) as [e'| |] eqn:E; simpl.
  - apply HN1. lia.
  - done.
  - exfalso. eapply HN0; [|exact E]. lia.
Qed.

Lemma traverse_terminates s :
  acyclic rootSchema s ->
  ∃ N, ∀ n, N <= n -> ∀ p e, traverse n (Some s) p rootSchema e ≠ OutOfFuel.
Proof.
  induction 1 as [s _ IH].
  destruct (null_or_not s) as [->|Hs].
  { exists 1. intros n Hn p e. by destruct n; [lia|]. }
  (* the properties *)
  assert (∃ N, ∀ n, N <= n -> ∀ p e,
            visit_properties (fun s q => traverse n s q rootSchema) s p e ≠ OutOfFuel) as [Np HNp].
  { unfold visit_properties.
    destruct (prop s "properties") as [props|] eqn:Ep; [|by exists 0].
    destruct (truthy props) eqn:Et; [|by exists 0].
    destruct (for_in_terminates props (keys props)) as [N HN].
    - intros key c Hin Hc. apply IH. by eapply visits_property.
    - exists N. intros n Hn p e. by apply HN. }
  (* the reference *)
  assert (∃ N, ∀ n, N <= n -> ∀ p e,
            visit_ref (fun s q => traverse n s q rootSchema) s p rootSchema e
                ≠ OutOfFuel) as [Nr HNr].
  { unfold visit_ref.
    destruct (prop s "$ref") as [ref|] eqn:Er; [|by exists 0].
    destruct (truthy ref) eqn:Et; [|by exists 0].
    destruct ref as [| | |r| |]; try by exists 0.
    destruct (resolve_ref r rootSchema) as [t|] eqn:Eres; simpl; [|by exists 0].
    destruct (truthy t) eqn:Ett; [|by exists 0].
    destruct (IH t) as [N HN]; [by eapply visits_ref|].
    exists N. intros n Hn p e. by apply HN. }
  exists (S (Np `max` Nr)). intros n Hn p e.
  destruct n as [|n]; [lia|]. rewrite traverse_unfold by done.
  destruct (visit_properties _ s p (own_default s p e)) as [e2| |] eqn:E; simpl.
  - apply HNr. lia.
  - done.
  - exfalso. eapply (HNp n); [lia|exact E].
Qed.

Lemma well_shaped_visits s c :
  well_shaped rootSchema s -> visits rootSchema s c -> well_shaped rootSchema c.
Proof. intros Hs Hv c' Hc'. apply Hs. by eapply rtc_l. Qed.

Lemma for_in_no_throw body ks e err :
  (∀ k e, k ∈ ks -> body k e ≠ Threw err) -> for_in body ks e ≠ Threw err.
Proof.
  revert e. induction ks as [|k ks IH]; intros e Hb; simpl; [done|].
  destruct (body k e) as [e'| |] eqn:E; simpl.
  - apply IH. intros k0 e0 Hin. apply Hb. by right.
  - intros [= ->]. eapply Hb; [left|exact E].
  - done.
Qed.

(** A well-shaped schema raises no [TypeError]. *)
Lemma traverse_no_throw n s p e err :
  well_shaped rootSchema s -> traverse n (Some s) p rootSchema e ≠ Threw err.
Proof.
  revert s p e. induction n as [|n IH]; intros s p e Hws; [done|].
  destruct (Hws s) as [Hs Href]; [done|].
  rewrite traverse_unfold by done.
  destruct (visit_properties _ s p (own_default s p e)) as [e2| |] eqn:E; simpl.
  - unfold visit_ref.
    destruct (prop s "$ref") as [ref|] eqn:Er; [|done].
    destruct (truthy ref) eqn:Et; [|done].
    destruct (Href ref) as [r ->]; [done..|].
    destruct (resolve_ref r rootSchema) as [t|] eqn:Eres; simpl; [|done].
    destruct (truthy t) eqn:Ett; [|done].
    apply IH. eapply well_shaped_visits; [done|]. by eapply visits_ref.
  - intros [= ->]. revert E. unfold visit_properties.
    destruct (prop s "properties") as [props|] eqn:Ep; [|done].
    destruct (truthy props) eqn:Et; [|done].
    apply for_in_no_throw. intros k e0 Hin.
    destruct (prop_keys_Some _ _ Hin) as [c Hc]. rewrite Hc.
    apply IH. eapply well_shaped_visits; [done|]. by eapply visits_property.
  - done.
Qed.

(** Without cycles and malformed nodes the traversal runs to completion. *)
Lemma traverse_completes s :
  acyclic rootSchema s -> well_shaped rootSchema s ->
  ∃ N, ∀ n, N <= n -> ∀ p e, ∃ e', traverse n (Some s) p rootSchema e = Done e'.
Proof.
  intros Hacc Hws. destruct (traverse_terminates s Hacc) as [N HN].
  exists N. intros n Hn p e.
  destruct (traverse n (Some s) p rootSchema e) as [e'|err|] eqn:E.
  - by eexists.
  - by apply traverse_no_throw in E.
  - by apply HN in E.
Qed.
End termination.

(** ** Cycles *)

Lemma string_of_nat_letter n k : starts_with_digit k = false -> string_of_nat n ≠ k.
Proof.
  intros Hk <-. unfold string_of_nat in Hk.
  by destruct (Nat.to_uint n).
Qed.

(** Only objects have named properties such as [properties] or [$ref]. *)
Lemma prop_named_object x k v :
  starts_with_digit k = false -> k ≠ "length" ->
  prop x k = Some v -> ∃ kvs, x = JObj kvs.
Proof.
  intros Hk Hlen.
  assert (Hidx : ∀ {A} n (xs : list A), assoc k (zip (index_keys n) xs) = None).
  { intros A n xs. destruct (assoc k (zip (index_keys n) xs)) as [y|] eqn:E; [|done].
    apply assoc_Some_elem, elem_of_zip_l, list_elem_of_In, in_map_iff in E
      as (i & Hi & _).
    by apply string_of_nat_letter in Hi. }
  assert (Hl : String.eqb k "length" = false) by (by apply String.eqb_neq).
  destruct x as [| | |s|xs|kvs]; try done.
  - unfold prop, entries. by rewrite Hl, Hidx.
  - unfold prop, entries. by rewrite Hl, Hidx.
  - by exists kvs.
Qed.

Lemma visits_object rootSchema x y : visits rootSchema x y -> ∃ kvs, x = JObj kvs.
Proof.
  intros [props key c Hp _ _ _|r t Hr _ _ _].
  - by eapply (prop_named_object x "properties").
  - by eapply (prop_named_object x "$ref").
Qed.

Lemma subterms_self x : x ∈ subterms x.
Proof. destruct x; left. Qed.

Lemma subterms_trans x y z : y ∈ subterms x -> z ∈ subterms y -> z ∈ subterms x.
Proof.
  revert y. induction x as [| | | |xs IH|kvs IH] using json_nested_ind;
    intros y Hy Hz; simpl in Hy;
    apply elem_of_cons in Hy as [->|Hy]; try done;
    try (by apply elem_of_nil in Hy).
  - simpl. right. apply list_elem_of_In, in_flat_map in Hy as (x & Hx & Hy).
    apply list_elem_of_In, in_flat_map. exists x. split; [done|].
    rewrite Forall_forall in IH. apply list_elem_of_In.
    apply (IH x (proj2 (list_elem_of_In _ _) Hx) y); [by apply list_elem_of_In|done].
  - simpl. right. apply list_elem_of_In, in_flat_map in Hy as ([k x] & Hx & Hy).
    apply list_elem_of_In, in_flat_map. exists (k, x). split; [done|].
    rewrite Forall_forall in IH. apply list_elem_of_In.
    apply (IH (k, x) (proj2 (list_elem_of_In _ _) Hx) y); [by apply list_elem_of_In|done].
Qed.

Lemma chars_atoms s y : y ∈ chars s -> atom y.
Proof.
  induction s as [|a s IH]; simpl; intros H; [by apply elem_of_nil in H|].
  apply elem_of_cons in H as [->|H]; [done|auto].
Qed.

(** What a property read yields is nested in the value read, or an atom. *)
Lemma prop_subterm x k y : prop x k = Some y -> y ∈ subterms x ∨ atom y.
Proof.
  destruct x as [| | |s|xs|kvs]; try done.
  - unfold prop. destruct (String.eqb k "length"); [by intros [= <-]; right|].
    intros H. right. apply assoc_Some_elem, elem_of_zip_r in H.
    by eapply chars_atoms.
  - unfold prop. destruct (String.eqb k "length"); [by intros [= <-]; right|].
    intros H. left. apply assoc_Some_elem, elem_of_zip_r in H.
    simpl. right. apply list_elem_of_In, in_flat_map. exists y.
    split; [by apply list_elem_of_In|]. apply list_elem_of_In, subterms_self.
  - intros H. left. apply assoc_Some_elem in H.
    simpl. right. apply list_elem_of_In, in_flat_map. exists (k, y).
    split; [by apply list_elem_of_In|]. apply list_elem_of_In, subterms_self.
Qed.

Lemma prop_atom x k y : atom x -> prop x k = Some y -> atom y.
Proof.
  intros Hx H. destruct (prop_subterm _ _ _ H) as [Hy|Hy]; [|done].
  destruct x; try done; simpl in Hy;
    apply list_elem_of_singleton in Hy as ->; done.
Qed.

Lemma fold_opt_index_None ks : fold_left opt_index ks None = None.
Proof. by induction ks. Qed.

Lemma fold_opt_index_atom ks x t :
  atom x -> fold_left opt_index ks (Some x) = Some t -> atom t.
Proof.
  revert x. induction ks as [|k ks IH]; intros x Hx; cbn [fold_left].
  { by intros [= <-]. }
  destruct (opt_index (Some x) k) as [y|] eqn:Hy.
  2:{ by rewrite fold_opt_index_None. }
  assert (Hp : prop x k = Some y) by (by destruct x).
  apply IH. by eapply prop_atom.
Qed.

Lemma fold_opt_index_subterm ks x t :
  fold_left opt_index ks (Some x) = Some t -> t ∈ subterms x ∨ atom t.
Proof.
  revert x. induction ks as [|k ks IH]; intros x; cbn [fold_left].
  { intros [= <-]. left. apply subterms_self. }
  destruct (opt_index (Some x) k) as [y|] eqn:Hy.
  2:{ by rewrite fold_opt_index_None. }
  assert (Hp : prop x k = Some y) by (by destruct x).
  intros Ht. destruct (prop_subterm _ _ _ Hp) as [Hsub|Hat].
  - destruct (IH _ Ht) as [Hin|?]; [|by right].
    left. by eapply subterms_trans.
  - right. by eapply fold_opt_index_atom.
Qed.

Lemma resolve_ref_subterm r rootSchema t :
  resolve_ref r rootSchema = Some t -> t ∈ subterms rootSchema ∨ atom t.
Proof.
  unfold resolve_ref. destruct (prop rootSchema "$defs") as [defs|] eqn:Hd.
  2:{ by rewrite fold_opt_index_None. }
  intros Ht. destruct (prop_subterm _ _ _ Hd) as [Hsub|Hat].
  - destruct (fold_opt_index_subterm _ _ _ Ht) as [Hin|?]; [|by right].
    left. by eapply subterms_trans.
  - right. by eapply fold_opt_index_atom.
Qed.

Section cycles.
Variables rootSchema s : json.

Lemma atom_no_visits x y : atom x -> ¬ visits rootSchema x y.
Proof. intros Hx [kvs ->]%visits_object. done. Qed.

(** The traversal stays among the parts of the schema it started in and
    of the root schema, or ends up at an atom. *)
Lemma visits_universe x y :
  x ∈ universe rootSchema s -> visits rootSchema x y -> y ∈ universe rootSchema s ∨ atom y.
Proof.
  intros Hx [props key c Hp _ _ Hc|r t _ _ Hres _].
  - destruct (prop_subterm _ _ _ Hp) as [Hps|Hat].
    + destruct (prop_subterm _ _ _ Hc) as [Hcs|?]; [|by right].
      left. unfold universe in *. rewrite elem_of_app in Hx |- *.
      destruct Hx as [Hx|Hx]; [left|right];
        (eapply subterms_trans; [exact Hx|]); by eapply subterms_trans.
    + right. by eapply prop_atom.
  - destruct (resolve_ref_subterm _ _ _ Hres) as [Hin|?]; [|by right].
    left. unfold universe. rewrite elem_of_app. by right.
Qed.

Lemma no_cycle_bounded n visited x :
  ¬ has_cycle rootSchema s ->
  NoDup visited -> visited ⊆ universe rootSchema s ->
  length (universe rootSchema s) - length visited <= n ->
  rtc (visits rootSchema) s x ->
  (∀ v, v ∈ visited -> tc (visits rootSchema) v x) ->
  x ∈ universe rootSchema s ∨ atom x ->
  Acc (fun c s' => visits rootSchema s' c) x.
Proof.
  intros Hno. revert visited x.
  induction n as [|n IH]; intros visited x Hnd Hsub Hlen Hreach Hvis Hx;
    constructor; intros y Hy.
  all: assert (Hxu : x ∈ universe rootSchema s)
         by (destruct Hx as [?|Hat]; [done|by apply atom_no_visits in Hy]).
  all: assert (Hfresh : x ∉ visited)
         by (intros Hin; apply Hno; exists x; split; [done|by apply Hvis]).
  all: assert (Hnd' : NoDup (x :: visited)) by (by constructor).
  all: assert (Hsub' : x :: visited ⊆ universe rootSchema s)
         by (intros z [->|Hz]%elem_of_cons; [done|by apply Hsub]).
  all: pose proof (submseteq_length _ _ (NoDup_submseteq _ _ Hnd' Hsub')) as Hle;
       simpl in Hle.
  { lia. }
  apply (IH (x :: visited)); try done.
  - simpl. lia.
  - by eapply rtc_r.
  - intros v [->|Hv]%elem_of_cons; [by apply tc_once|].
    eapply tc_r; [by apply Hvis|done].
  - by eapply visits_universe.
Qed.

(** Without a cycle every chain of recursive calls is finite. *)
Lemma no_cycle_acyclic : ¬ has_cycle rootSchema s -> acyclic rootSchema s.
Proof.
  intros Hno. apply (no_cycle_bounded (length (universe rootSchema s)) []); try done.
  - constructor.
  - intros z Hz. by apply elem_of_nil in Hz.
  - simpl. lia.
  - intros v Hv. by apply elem_of_nil in Hv.
  - left. unfold universe. rewrite elem_of_app. left. apply subterms_self.
Qed.
End cycles.

Lemma acyclic_no_self_reach rootSchema c :
  acyclic rootSchema c -> ¬ tc (visits rootSchema) c c.
Proof.
  induction 1 as [c _ IH]. intros Hc.
  inversion Hc as [? ? Hstep|? y ? Hstep Hrest]; subst.
  - apply (IH c Hstep). by apply tc_once.
  - apply (IH y Hstep). by eapply tc_r.
Qed.

Lemma acyclic_no_cycle rootSchema s :
  acyclic rootSchema s -> ¬ has_cycle rootSchema s.
Proof.
  intros Hacc (c & Hreach & Hcyc).
  assert (Hc : acyclic rootSchema c).
  { clear Hcyc. induction Hreach as [|x y z Hxy _ IH]; [done|].
    apply IH. destruct Hacc as [Hacc]. by apply Hacc. }
  by apply (acyclic_no_self_reach _ _ Hc).
Qed.

(** ** [setDefault] on documents *)

Lemma setDefault_cons obj k rest v :
  rest ≠ [] ->
  setDefault obj (k :: rest) v =
    set_prop k (JObj (setDefault (descend obj k) rest v)) obj.
Proof. by destruct rest. Qed.

Lemma setDefault_head obj k rest v :
  ∃ x, setDefault obj (k :: rest) v = set_prop k x obj.
Proof. destruct rest; [by eexists|]. rewrite setDefault_cons by done. by eexists. Qed.

Lemma descend_object obj k kvs : assoc k obj = Some (JObj kvs) -> descend obj k = kvs.
Proof. unfold descend. by intros ->. Qed.


Lemma get_at_cons kvs k q :
  get_at (JObj kvs) (k :: q) =
    match assoc k kvs with Some c => get_at c q | None => None end.
Proof. done. Qed.

Lemma get_at_object_step x k q w :
  q ≠ [] -> get_at x (k :: q) = Some w ->
  ∃ kvs kvs', x = JObj kvs ∧ assoc k kvs = Some (JObj kvs') ∧
              get_at (JObj kvs') q = Some w.
Proof.
  intros Hq. simpl. destruct x as [| | | | |kvs]; try done.
  destruct (assoc k kvs) as [c|] eqn:E; [|done].
  destruct q as [|k' q]; [done|]. simpl.
  destruct c as [| | | | |kvs']; try done.
  intros H. by exists kvs, kvs'.
Qed.

Lemma unrelated_cons k p q : unrelated (k :: p) (k :: q) ↔ unrelated p q.
Proof.
  unfold unrelated. split; intros [H1 H2]; split; intros H.
  - apply H1. by apply prefix_cons.
  - apply H2. by apply prefix_cons.
  - apply H1. by eapply prefix_cons_inv_2.
  - apply H2. by eapply prefix_cons_inv_2.
Qed.

Lemma unrelated_nonempty p q : unrelated p q -> p ≠ [] ∧ q ≠ [].
Proof.
  intros [H1 H2]. split; intros ->.
  - apply H1, prefix_nil.
  - apply H2, prefix_nil.
Qed.

Lemma unrelated_sym p q : unrelated p q -> unrelated q p.
Proof. by intros [? ?]. Qed.

(** The last segment receives the value. *)
Lemma get_at_setDefault_same obj p v :
  p ≠ [] -> get_at (JObj (setDefault obj p v)) p = Some v.
Proof.
  revert obj. induction p as [|k rest IH]; intros obj Hp; [done|].
  destruct rest as [|k2 rest].
  - simpl. by rewrite assoc_set_prop_eq.
  - rewrite setDefault_cons, get_at_cons, assoc_set_prop_eq by done.
    by apply IH.
Qed.

(** A write leaves what was reachable on an unrelated path in place. *)
Lemma setDefault_frame obj p v q w :
  unrelated p q ->
  get_at (JObj obj) q = Some w ->
  get_at (JObj (setDefault obj p v)) q = Some w.
Proof.
  revert obj q. induction p as [|k rest IH]; intros obj q Hun Hq.
  { by destruct (unrelated_nonempty _ _ Hun). }
  destruct q as [|k' q]; [by destruct (unrelated_nonempty _ _ Hun)|].
  destruct (decide (k = k')) as [<-|Hne].
  - apply unrelated_cons in Hun.
    destruct (unrelated_nonempty _ _ Hun) as [Hrest Hq'].
    apply get_at_object_step in Hq as (kvs & kvs' & [= <-] & Hk & Hw); [|done].
    rewrite setDefault_cons, get_at_cons, assoc_set_prop_eq by done.
    rewrite (descend_object _ _ _ Hk). by apply IH.
  - destruct (setDefault_head obj k rest v) as [x ->].
    rewrite get_at_cons in Hq |- *. by rewrite assoc_set_prop_ne.
Qed.





Lemma get_at_nonempty_object x r w :
  r ≠ [] -> get_at x r = Some w -> ∃ kvs, x = JObj kvs.
Proof. destruct r; [done|]. destruct x; try done. by eexists. Qed.

(** ** The traversal as a sequence of writes *)

Lemma replay_app ws1 ws2 obj : replay (ws1 ++ ws2) obj = replay ws2 (replay ws1 obj).
Proof. apply fold_left_app. Qed.

Section writes.
Variable rootSchema : json.

Lemma traverse_Done_Some n s p e e' :
  traverse n s p rootSchema e = Done e' -> ∃ c, s = Some c ∧ c ≠ JNull.
Proof.
  destruct n; [done|]. destruct s as [c|]; [|done].
  destruct c; try done; intros _; by eexists.
Qed.

Lemma for_in_replays n props p ks e e' :
  (∀ c q e e', traverse n (Some c) q rootSchema e = Done e' ->
     defaults e' = replay (declared n rootSchema c q) (defaults e) ∧
     ∀ q' d, (q', d) ∈ declared n rootSchema c q ↔ declares rootSchema c q q' d) ->
  for_in (fun key => traverse n (prop props key) (p ++ [key]) rootSchema) ks e
    = Done e' ->
  let ws := flat_map (fun key =>
                        match prop props key with
                        | Some c => declared n rootSchema c (p ++ [key])
                        | None => []
                        end) ks in
  defaults e' = replay ws (defaults e) ∧
  ∀ q d, (q, d) ∈ ws ↔
    ∃ key c, key ∈ ks ∧ prop props key = Some c ∧
             declares rootSchema c (p ++ [key]) q d.
Proof.
  intros IH. revert e. induction ks as [|k ks IHks]; intros e; simpl.
  - intros [= <-]. split; [done|]. intros q d. split.
    + intros H. by apply elem_of_nil in H.
    + intros (key & c & H & _). by apply elem_of_nil in H.
  - intros H. apply bind_Done in H as (e1 & H1 & H2).
    destruct (traverse_Done_Some _ _ _ _ _ H1) as (c & Hc & _).
    rewrite Hc in H1 |- *. apply IH in H1 as (Hd1 & Hw1).
    apply IHks in H2 as (Hd2 & Hw2). split.
    + by rewrite replay_app, <-Hd1.
    + intros q d. rewrite elem_of_app, Hw1, Hw2. split.
      * intros [Hd|(key & c' & Hin & Hp & Hd)].
        -- exists k, c. split; [left|done].
        -- exists key, c'. split; [by right|done].
      * intros (key & c' & Hin & Hp & Hd).
        apply elem_of_cons in Hin as [->|Hin].
        -- left. congruence.
        -- right. by exists key, c'.
Qed.

(** A completed traversal is the replay, in traversal order, of one
    write per declared default. *)
Lemma traverse_replays n s p e e' :
  traverse n (Some s) p rootSchema e = Done e' ->
  defaults e' = replay (declared n rootSchema s p) (defaults e) ∧
  ∀ q d, (q, d) ∈ declared n rootSchema s p ↔ declares rootSchema s p q d.
Proof.
  revert s p e e'. induction n as [|n IH]; intros s p e e'; [done|].
  intros H. destruct (traverse_Done_Some _ _ _ _ _ H) as (? & [= <-] & Hs).
  rewrite traverse_unfold in H by done.
  apply bind_Done in H as (e2 & Hprops & Href).
  cbn [declared].
  set (ws0 := match prop s "default" with Some d => [(p, d)] | None => [] end).
  set (ws1 := match prop s "properties" with Some _ => _ | None => _ end).
  set (ws2 := match prop s "$ref" with Some _ => _ | None => _ end).
  (* the node itself *)
  assert (defaults (own_default s p e) = replay ws0 (defaults e) ∧
          ∀ q d, (q, d) ∈ ws0 ↔ q = p ∧ prop s "default" = Some d)
    as (Hd0 & Hw0).
  { unfold own_default, ws0. destruct (prop s "default") as [d0|].
    - split; [done|]. intros q d.
      rewrite list_elem_of_singleton. split.
      + by intros [= -> ->].
      + by intros [-> [= ->]].
    - split; [done|]. intros q d. split.
      + intros H. by apply elem_of_nil in H.
      + by intros [_ ?]. }
  (* its properties *)
  assert (defaults e2 = replay ws1 (defaults (own_default s p e)) ∧
          ∀ q d, (q, d) ∈ ws1 ↔
            ∃ props key c, prop s "properties" = Some props ∧
              truthy props = true ∧ key ∈ keys props ∧
              prop props key = Some c ∧
              declares rootSchema c (p ++ [key]) q d)
    as (Hd1 & Hw1).
  { revert Hprops. unfold visit_properties, ws1.
    destruct (prop s "properties") as [props|] eqn:Ep.
    2:{ intros [= <-]. split; [done|]. intros q d. split.
        - intros H. by apply elem_of_nil in H.
        - by intros (? & ? & ? & ? & _). }
    destruct (truthy props) eqn:Et.
    2:{ intros [= <-]. split; [done|]. intros q d. split.
        - intros H. by apply elem_of_nil in H.
        - intros (? & ? & ? & [= <-] & ? & _). congruence. }
    intros H. apply for_in_replays in H as (Hd1 & Hw1); [|exact IH].
    split; [done|]. intros q d. rewrite Hw1. split.
    - intros (key & c & ? & ? & ?). by exists props, key, c.
    - intros (? & key & c & [= <-] & ? & ? & ? & ?). by exists key, c. }
  (* its reference *)
  assert (defaults e' = replay ws2 (defaults e2) ∧
          ∀ q d, (q, d) ∈ ws2 ↔
            ∃ r t, prop s "$ref" = Some (JStr r) ∧ truthy (JStr r) = true ∧
              resolve_ref r rootSchema = Some t ∧ truthy t = true ∧
              declares rootSchema t p q d)
    as (Hd2 & Hw2).
  { revert Href. unfold visit_ref, ws2.
    assert (Hnone : ∀ e0, defaults e' = defaults e0 ->
              (∀ r t, prop s "$ref" = Some (JStr r) -> truthy (JStr r) = true ->
                 resolve_ref r rootSchema = Some t -> truthy t = true -> False) ->
              defaults e' = replay [] (defaults e0) ∧
              ∀ q d, (q, d) ∈ @nil (path * json) ↔
                ∃ r t, prop s "$ref" = Some (JStr r) ∧ truthy (JStr r) = true ∧
                  resolve_ref r rootSchema = Some t ∧ truthy t = true ∧
                  declares rootSchema t p q d).
    { intros e0 He0 Hno. split; [done|]. intros q d. split.
      - intros H. by apply elem_of_nil in H.
      - intros (r & t & ? & ? & ? & ? & _). exfalso. eauto. }
    destruct (prop s "$ref") as [ref|] eqn:Er.
    2:{ intros [= <-]. apply Hnone; [done|]. by intros. }
    destruct ref as [| | |r| |];
      try (destruct (truthy _); [done|]; intros [= <-]; apply Hnone; [done|];
           by intros).
    destruct (truthy (JStr r)) eqn:Et.
    2:{ intros [= <-]. apply Hnone; [done|]. intros r' t [= <-]. congruence. }
    destruct (resolve_ref r rootSchema) as [t|] eqn:Eres; simpl.
    2:{ intros [= <-]. apply Hnone; [apply no_own_target_defaults|].
        intros r' t [= <-]. congruence. }
    destruct (truthy t) eqn:Ett.
    2:{ intros [= <-]. apply Hnone; [apply no_own_target_defaults|].
        intros r' t' [= <-] _. congruence. }
    intros H. apply IH in H as (Hd2 & Hw2).
    split; [done|]. intros q d. rewrite Hw2. split.
    - intros ?. by exists r, t.
    - intros (r' & t' & [= <-] & ? & Hres & ? & ?). congruence. }
  split.
  - by rewrite !replay_app, <-Hd0, <-Hd1.
  - intros q d. rewrite !elem_of_app, Hw0, Hw1, Hw2. split.
    + intros [[-> Hd]|[(props & key & c & ? & ? & ? & ? & ?)|(r & t & ? & ? & ? & ? & ?)]].
      * by apply declares_here.
      * by eapply declares_property.
      * by eapply declares_ref.
    + inversion 1; subst.
      * by left.
      * right; left. by exists props, key, c.
      * right; right. by exists r, t.
Qed.

Lemma traverse_writes n s p e e' :
  traverse n (Some s) p rootSchema e = Done e' ->
  ∃ ws, defaults e' = replay ws (defaults e) ∧
        ∀ q d, (q, d) ∈ ws ↔ declares rootSchema s p q d.
Proof. intros H. eexists. by apply traverse_replays. Qed.

Lemma for_in_writes n props p ks e e' :
  for_in (fun key => traverse n (prop props key) (p ++ [key]) rootSchema) ks e
    = Done e' ->
  ∃ ws, defaults e' = replay ws (defaults e) ∧
        ∀ q d, (q, d) ∈ ws ↔
          ∃ key c, key ∈ ks ∧ prop props key = Some c ∧
                   declares rootSchema c (p ++ [key]) q d.
Proof.
  intros H. eexists. apply (for_in_replays n props p ks e e'); [|done].
  intros c q e0 e0'. apply traverse_replays.
Qed.
End writes.

(** ** Writes on separate paths *)



(** ** A checker for schemas *)

Lemma visits_children rootSchema s c :
  visits rootSchema s c ↔ c ∈ children rootSchema s.
Proof.
  unfold children. rewrite elem_of_app. split.
  - intros [props key c' Hp Ht Hk Hc|r t Hr Ht Hres Htt].
    + left. rewrite Hp, Ht. apply list_elem_of_omap. by exists key.
    + right. rewrite Hr, Ht, Hres, Htt. left.
  - intros [H|H].
    + destruct (prop s "properties") as [props|] eqn:Hp; [|by apply elem_of_nil in H].
      destruct (truthy props) eqn:Ht; [|by apply elem_of_nil in H].
      apply list_elem_of_omap in H as (key & Hk & Hc).
      by eapply visits_property.
    + destruct (prop s "$ref") as [ref|] eqn:Hr; [|by apply elem_of_nil in H].
      destruct ref as [| | |r| |]; try by apply elem_of_nil in H.
      destruct (truthy (JStr r)) eqn:Ht; [|by apply elem_of_nil in H].
      destruct (resolve_ref r rootSchema) as [t|] eqn:Hres; [|by apply elem_of_nil in H].
      destruct (truthy t) eqn:Htt; [|by apply elem_of_nil in H].
      apply list_elem_of_singleton in H as ->. by eapply visits_ref.
Qed.

Lemma well_shaped_nodeb_sound s : well_shaped_nodeb s = true -> well_shaped_node s.
Proof.
  unfold well_shaped_nodeb, well_shaped_node. intros H. split.
  - by intros ->.
  - intros ref Hr Ht.
    assert (H' : match prop s "$ref" with
                 | Some (JStr _) | None => true
                 | Some ref => negb (truthy ref)
                 end = true) by (by destruct s).
    rewrite Hr in H'.
    destruct ref as [| | |r| |]; [| | |by exists r| |]; by rewrite Ht in H'.
Qed.

Lemma checked_sound n rootSchema s :
  checked n rootSchema s = true -> acyclic rootSchema s ∧ well_shaped rootSchema s.
Proof.
  revert s. induction n as [|n IH]; intros s; [done|]. simpl.
  intros [Hnode Hch]%andb_true_iff.
  assert (Hsub : ∀ c, visits rootSchema s c ->
            acyclic rootSchema c ∧ well_shaped rootSchema c).
  { intros c Hc. apply IH. rewrite forallb_forall in Hch. apply Hch.
    apply list_elem_of_In. by apply visits_children. }
  split.
  - constructor. intros c Hc. by apply Hsub.
  - intros c Hc. destruct (rtc_inv _ _ Hc) as [<-|(c' & Hv & Hrest)].
    + by apply well_shaped_nodeb_sound.
    + by apply (Hsub c').
Qed.

Lemma declares_prefix rootSchema s p q d :
  declares rootSchema s p q d -> p `prefix_of` q.
Proof.
  induction 1 as [| s p props key c q d _ _ _ _ _ IH |]; [done| |done].
  etrans; [|exact IH]. by apply prefix_app_r.
Qed.

(** ** The declared defaults as a list *)



(** ** Cycles never complete *)

Section divergence.
Variable rootSchema : json.





End divergence.

(** ** The claims on default extraction *)

(** C8.  For every schema whose [$ref] references form no cycle the
    traversal terminates: from some amount of fuel on, [traverse] never
    runs out of it and its outcome no longer depends on it.  This holds
    at every node, path and state of the output, hence for
    [extractDefaultsFromSchema]. *)
Theorem traverse_terminates_without_cycles (rootSchema s : json) :
  ¬ has_cycle rootSchema s ->
  ∃ N, ∀ n, N <= n -> ∀ p e,
    traverse n (Some s) p rootSchema e ≠ OutOfFuel ∧
    traverse n (Some s) p rootSchema e = traverse N (Some s) p rootSchema e.
Proof.
  intros Hacc%no_cycle_acyclic.
  destruct (traverse_terminates rootSchema s Hacc) as [N HN].
  exists N. intros n Hn p e. split; [by apply HN|].
  eapply traverse_fuel_mono; [done| |done]. by apply HN.
Qed.

Lemma scenario_checked : checked 3 scenario_schema scenario_schema = true.
Proof. vm_compute. reflexivity. Qed.

Lemma checked_no_cycle n rootSchema s :
  checked n rootSchema s = true -> ¬ has_cycle rootSchema s.
Proof. intros H. apply acyclic_no_cycle. by apply (checked_sound n). Qed.

Lemma traverse_terminates_without_cycles_witness :
  ¬ has_cycle scenario_schema scenario_schema ∧
  ∃ N, ∀ n, N <= n -> ∀ p e,
    traverse n (Some scenario_schema) p scenario_schema e ≠ OutOfFuel ∧
    traverse n (Some scenario_schema) p scenario_schema e =
      traverse N (Some scenario_schema) p scenario_schema e.
Proof.
  split.
  - exact (checked_no_cycle 3 _ _ scenario_checked).
  - apply (traverse_terminates_without_cycles scenario_schema scenario_schema).
    exact (checked_no_cycle 3 _ _ scenario_checked).
Defined.

Lemma run_extraction_fuel_mono n m schema e :
  run_extraction n schema = Done e -> n <= m -> run_extraction m schema = Done e.
Proof. intros H Hle. by eapply traverse_fuel_mono. Qed.

Lemma extract_fuel_mono n m schema doc :
  extractDefaultsFromSchema n schema = Done doc -> n <= m ->
  extractDefaultsFromSchema m schema = Done doc.
Proof.
  unfold extractDefaultsFromSchema. intros H Hle.
  apply bind_Done in H as (e & He & [= <-]).
  by rewrite (run_extraction_fuel_mono _ _ _ _ He Hle).
Qed.





(** C3.  At a node with both [properties] and a resolvable [$ref] the
    properties are traversed first and the reference target after them,
    on the same path and on the document the properties left; so where
    both supply a default for one path the reference's value is the one
    that stays (shown for every property name other than [__proto__],
    to which an assignment creates no property), and the scenario
    schema yields exactly [{ x: 1, y: 2 }]. *)
Theorem ref_is_traversed_after_properties :
  (∀ n s p rootSchema e props r t,
     prop s "properties" = Some props -> truthy props = true ->
     prop s "$ref" = Some (JStr r) -> truthy (JStr r) = true ->
     resolve_ref r rootSchema = Some t -> truthy t = true ->
     traverse (S n) (Some s) p rootSchema e =
       let* e2 := for_in (fun key =>
                            traverse n (prop props key) (p ++ [key]) rootSchema)
                    (keys props) (own_default s p e) in
       traverse n (Some t) p rootSchema e2) ∧
  (∀ k a b n, k ≠ "__proto__" -> 3 <= n ->
     extractDefaultsFromSchema n (conflict_schema k a b) = Done (JObj [(k, b)])) ∧
  (∀ n, 3 <= n ->
     extractDefaultsFromSchema n scenario_schema
       = Done (JObj [("x", JNum 1); ("y", JNum 2)])).
Proof.
  split; [|split].
  - intros n s p rootSchema e props r t Hp Ht Hr Htr Hres Htt.
    assert (Hs : s ≠ JNull) by (by intros ->).
    rewrite traverse_unfold by done.
    unfold visit_properties, visit_ref. rewrite Hp, Ht, Hr, Htr, Hres. simpl.
    by rewrite Htt.
  - intros k a b n _ Hn. apply (extract_fuel_mono 3); [|done].
    unfold extractDefaultsFromSchema, run_extraction, conflict_schema.
    rewrite traverse_unfold by done.
    unfold visit_properties, visit_ref, own_default, keys. simpl.
    rewrite !String.eqb_refl. simpl.
    unfold visit_properties, visit_ref, own_default, keys. simpl.
    rewrite !String.eqb_refl. simpl.
    unfold visit_properties, visit_ref, own_default, write_default. simpl.
    by rewrite !String.eqb_refl.
  - intros n Hn. apply (extract_fuel_mono 3); [|done]. vm_compute. reflexivity.
Qed.

Lemma ref_is_traversed_after_properties_witness :
  traverse 3 (Some (conflict_schema "k" (JNum 1) (JNum 2))) []
    (conflict_schema "k" (JNum 1) (JNum 2)) (Env [] [])
  = Done (Env [("k", JNum 2)] []) ∧
  extractDefaultsFromSchema 3 (conflict_schema "k" (JNum 1) (JNum 2))
  = Done (JObj [("k", JNum 2)]) ∧
  extractDefaultsFromSchema 3 scenario_schema
  = Done (JObj [("x", JNum 1); ("y", JNum 2)]).
Proof.
  split; [|split].
  2:{ apply (proj1 (proj2 ref_is_traversed_after_properties) "k" (JNum 1) (JNum 2) 3);
        [discriminate|lia]. }
  - rewrite (proj1 ref_is_traversed_after_properties 2
               (conflict_schema "k" (JNum 1) (JNum 2)) []
               (conflict_schema "k" (JNum 1) (JNum 2)) (Env [] [])
               (JObj [("k", JObj [("default", JNum 1)])]) "#/$defs/T"
               (JObj [("properties", JObj [("k", JObj [("default", JNum 2)])])]));
      reflexivity.
  - apply (proj2 (proj2 ref_is_traversed_after_properties) 3). lia.
Defined.

(** ** Nodes without their reference *)






(** The own-property value of a chain of reads, by where the chain
    ends. *)
Lemma walk_ref_fold ks acc :
  match walk_ref ks acc with
  | Own x => fold_left opt_index ks acc = x
  | _ => fold_left opt_index ks acc = None
  end.
Proof.
  revert acc. induction ks as [|k ks IH]; intros acc; [done|].
  cbn [walk_ref fold_left].
  destruct acc as [x|]; [|apply fold_opt_index_None].
  destruct (null_or_not x) as [->|Hx]; [apply fold_opt_index_None|].
  assert (Hidx : opt_index (Some x) k = prop x k) by (by destruct x).
  rewrite Hidx.
  assert (Hwalk : walk_ref (k :: ks) (Some x) =
            match prop x k with
            | Some y => walk_ref ks (Some y)
            | None =>
                if bool_decide (k ∈ object_prototype_names) then
                  match ks with [] => Inherited | _ :: _ => Unmodelled end
                else match x with JObj _ => Own None | _ => Unmodelled end
            end) by (by destruct x).
  cbn [walk_ref] in Hwalk.
  replace (match x with
           | JNull => Own None
           | _ => match prop x k with
                  | Some y => walk_ref ks (Some y)
                  | None =>
                      if bool_decide (k ∈ object_prototype_names)
                      then match ks with [] => Inherited | _ :: _ => Unmodelled end
                      else match x with JObj _ => Own None | _ => Unmodelled end
                  end
           end)
    with (match prop x k with
          | Some y => walk_ref ks (Some y)
          | None =>
              if bool_decide (k ∈ object_prototype_names) then
                match ks with [] => Inherited | _ :: _ => Unmodelled end
              else match x with JObj _ => Own None | _ => Unmodelled end
          end) by (by destruct x).
  destruct (prop x k) as [y|]; [apply IH|].
  rewrite fold_opt_index_None.
  destruct (bool_decide _); [by destruct ks|by destruct x].
Qed.

Lemma walk_ref_Own r rootSchema x :
  walk_ref (refPath r) (prop rootSchema "$defs") = Own x ->
  resolve_ref r rootSchema = x.
Proof.
  intros H. unfold resolve_ref.
  pose proof (walk_ref_fold (refPath r) (prop rootSchema "$defs")) as Hf.
  by rewrite H in Hf.
Qed.







(** ** The root default *)

Lemma replay_assoc_other ws obj k0 :
  (∀ q d, (q, d) ∈ ws -> ∃ k rest, q = k :: rest ∧ k ≠ k0) ->
  assoc k0 (replay ws obj) = assoc k0 obj.
Proof.
  revert obj. induction ws as [|[q d] ws IH]; intros obj Hws; [done|].
  simpl. rewrite IH.
  - destruct (Hws q d) as (k & rest & -> & Hk); [left|].
    destruct (setDefault_head obj k rest d) as [x ->].
    by apply assoc_set_prop_ne.
  - intros q' d' Hin. apply (Hws q' d'). by right.
Qed.

Lemma json_size_member k kvs v :
  assoc k kvs = Some v -> json_size v < json_size (JObj kvs).
Proof.
  intros H. apply assoc_Some_elem in H. simpl.
  induction kvs as [|[k' v'] kvs IH]; [by apply elem_of_nil in H|].
  apply elem_of_cons in H as [[= <- <-]|H]; simpl; [lia|].
  specialize (IH H). lia.
Qed.

(** C10 (as amended).  When the root of the schema declares a default
    [d], the root-level write puts [d] under the key ["undefined"].  If
    the root has no truthy [$ref] and no property named ["undefined"],
    every document the extraction returns maps ["undefined"] to [d], so
    it is not [d]; and without cycles and malformed nodes a document is
    returned. *)
Theorem root_default_is_stored_under_undefined (schema d : json) :
  prop schema "default" = Some d ->
  defaults (own_default schema [] (Env [] [])) = [("undefined", d)] ∧
  (truthy_opt (prop schema "$ref") = false ->
   (∀ props, prop schema "properties" = Some props -> "undefined" ∉ keys props) ->
   (∀ n doc, extractDefaultsFromSchema n schema = Done (JObj doc) ->
      assoc "undefined" doc = Some d ∧ JObj doc ≠ d) ∧
   (¬ has_cycle schema schema -> well_shaped schema schema ->
    ∃ N, ∀ n, N <= n -> ∃ doc,
      extractDefaultsFromSchema n schema = Done (JObj doc))).
Proof.
  intros Hd. split.
  { unfold own_default. by rewrite Hd. }
  intros Href Hprops. split.
  - intros n doc Hex.
    assert (Hun : assoc "undefined" doc = Some d).
    { unfold extractDefaultsFromSchema, run_extraction in Hex.
      apply bind_Done in Hex as (e & He & [= <-]).
      destruct n as [|n]; [done|].
      destruct (traverse_Done_Some _ _ _ _ _ _ He) as (? & [= <-] & Hs).
      rewrite traverse_unfold in He by done.
      apply bind_Done in He as (e2 & Hvp & Hvr).
      assert (e = e2) as ->.
      { revert Hvr Href. unfold visit_ref.
        destruct (prop schema "$ref") as [ref|]; simpl; [|congruence].
        intros H Ht. rewrite Ht in H. congruence. }
      revert Hvp. unfold own_default, visit_properties. rewrite Hd.
      destruct (prop schema "properties") as [props|] eqn:Hp.
      2:{ by intros [= <-]. }
      destruct (truthy props).
      2:{ by intros [= <-]. }
      intros H. apply for_in_writes in H as (ws & Hdoc & Hw).
      rewrite Hdoc. rewrite replay_assoc_other; [done|].
      intros q d' Hin. apply Hw in Hin as (key & c & Hk & _ & Hdecl).
      apply declares_prefix in Hdecl as [rest ->].
      exists key, rest. split; [done|]. intros ->. by apply (Hprops props). }
    split; [done|]. intros <-.
    apply json_size_member in Hun. lia.
  - intros Hacc%no_cycle_acyclic Hws.
    destruct (traverse_completes schema schema Hacc Hws) as [N HN].
    exists N. intros n Hn. destruct (HN n Hn [] (Env [] [])) as [e He].
    exists (defaults e). unfold extractDefaultsFromSchema, run_extraction.
    by rewrite He.
Qed.

Lemma root_default_checked :
  checked 3 root_default_schema root_default_schema = true.
Proof. vm_compute. reflexivity. Qed.

Lemma root_default_is_stored_under_undefined_witness :
  extractDefaultsFromSchema 3 root_default_schema
    = Done (JObj [("undefined", JNum 7); ("a", JNum 1)]) ∧
  assoc "undefined" [("undefined", JNum 7); ("a", JNum 1)] = Some (JNum 7) ∧
  ∃ N, ∀ n, N <= n -> ∃ doc,
    extractDefaultsFromSchema n root_default_schema = Done (JObj doc).
Proof.
  assert (Hex : extractDefaultsFromSchema 3 root_default_schema
                = Done (JObj [("undefined", JNum 7); ("a", JNum 1)]))
    by (vm_compute; reflexivity).
  assert (Hd : prop root_default_schema "default" = Some (JNum 7))
    by reflexivity.
  assert (Href : truthy_opt (prop root_default_schema "$ref") = false)
    by reflexivity.
  assert (Hprops : ∀ props, prop root_default_schema "properties" = Some props ->
                     "undefined" ∉ keys props).
  { intros props [= <-]. vm_compute. intros H.
    apply list_elem_of_singleton in H. discriminate. }
  destruct (root_default_is_stored_under_undefined root_default_schema (JNum 7) Hd)
    as [_ Hrest].
  destruct (Hrest Href Hprops) as [Hall Hsome].
  split; [exact Hex|]. split.
  - exact (proj1 (Hall 3 _ Hex)).
  - apply Hsome.
    + exact (checked_no_cycle 3 _ _ root_default_checked).
    + exact (proj2 (checked_sound 3 _ _ root_default_checked)).
Defined.

(** C10 as stated fails: with a root property that is itself named
    ["undefined"] the later write replaces the root default. *)
Lemma root_default_counterexample :
  ¬ root_default_unrestricted undefined_property_schema.
Proof.
  intros Hclaim.
  specialize (Hclaim (JNum 1) 3 [("undefined", JNum 2)]).
  discriminate Hclaim; vm_compute; reflexivity.
Qed.

(** ** [setDefault] on the store *)

Section store_facts.
Implicit Types (h : Store.heap) (l cur : Store.loc) (v x : Store.value).

Lemma store_lookup_other h cur k v l :
  l ≠ cur -> Store.store h cur k v !! l = h !! l.
Proof.
  intros Hne. unfold Store.store.
  destruct (h !! cur) as [[props|elems]|]; [|done..].
  by rewrite lookup_insert_ne.
Qed.

Lemma store_lookup_plain h cur k v props :
  h !! cur = Some (Store.Plain props) ->
  Store.store h cur k v !! cur = Some (Store.Plain (set_prop k v props)).
Proof. intros H. unfold Store.store. rewrite H. by rewrite lookup_insert_eq. Qed.

Lemma setDefault_store_step h cur k rest v :
  rest ≠ [] ->
  Store.setDefault h cur (k :: rest) v =
    let old := Store.load h cur k in
    let l := fresh (dom h) in
    let copy := Store.Plain (if Store.truthy_opt old
                             then Store.entries h (default Store.VNull old)
                             else []) in
    Store.setDefault (Store.store (<[l := copy]> h) cur k (Store.VRef l)) l rest v.
Proof. by destruct rest. Qed.

(** A write touches no object that existed before it, apart from the one
    it is applied to. *)
Lemma setDefault_lookup_other p h cur v l :
  l ≠ cur -> is_Some (h !! l) -> Store.setDefault h cur p v !! l = h !! l.
Proof.
  revert h cur. induction p as [|k rest IH]; intros h cur Hne Hl.
  { by apply store_lookup_other. }
  destruct (decide (rest = [])) as [->|Hrest].
  { by apply store_lookup_other. }
  rewrite setDefault_store_step by done. cbv zeta.
  set (l0 := fresh (dom h)).
  assert (Hl0 : l ≠ l0).
  { intros ->. apply (is_fresh (dom h)). by apply elem_of_dom. }
  rewrite IH.
  - rewrite store_lookup_other by done. by rewrite lookup_insert_ne.
  - done.
  - rewrite store_lookup_other by done. by rewrite lookup_insert_ne.
Qed.

(** The object written to stays an ordinary object and gains or changes
    the property named by the first segment only. *)
Lemma setDefault_lookup_root k rest h cur v props :
  h !! cur = Some (Store.Plain props) ->
  ∃ x, Store.setDefault h cur (k :: rest) v !! cur
       = Some (Store.Plain (set_prop k x props)).
Proof.
  intros Hcur. destruct (decide (rest = [])) as [->|Hrest].
  { exists v. by apply store_lookup_plain. }
  rewrite setDefault_store_step by done. cbv zeta.
  set (l0 := fresh (dom h)).
  assert (Hl0 : cur ≠ l0).
  { intros E. apply (is_fresh (dom h)). fold l0. rewrite <-E. by apply elem_of_dom. }
  exists (Store.VRef l0). rewrite setDefault_lookup_other.
  - apply store_lookup_plain. by rewrite lookup_insert_ne.
  - done.
  - erewrite store_lookup_plain; [done|]. by rewrite lookup_insert_ne.
Qed.

(** *** Reading the store *)

Lemma reify_fuel_mono n m h x j :
  Store.reify n h x = Some j -> n <= m -> Store.reify m h x = Some j.
Proof.
  revert m x j. induction n as [|n IH]; intros m x j H Hle.
  { destruct x; try done; by destruct m. }
  destruct x as [| | | |l]; try (by destruct m).
  destruct m as [|m]; [lia|]. simpl in *.
  destruct (h !! l) as [[props|elems]|]; [| |done].
  - apply fmap_Some in H as (d & Hd & ->). apply fmap_Some. exists d. split; [|done].
    apply mapM_Some in Hd. apply mapM_Some.
    eapply Forall2_impl; [exact Hd|]. intros [k x] [k' jx] Hx. simpl in *.
    apply fmap_Some in Hx as (jx' & Hx & [= -> ->]). apply fmap_Some.
    exists jx'. split; [|done]. apply IH; [done|lia].
  - apply fmap_Some in H as (d & Hd & ->). apply fmap_Some. exists d. split; [|done].
    apply mapM_Some in Hd. apply mapM_Some.
    eapply Forall2_impl; [exact Hd|]. intros x jx Hx. apply IH; [done|lia].
Qed.

Lemma reify_props_fuel_mono n m h props d :
  Store.reify_props n h props = Some d -> n <= m ->
  Store.reify_props m h props = Some d.
Proof.
  unfold Store.reify_props. intros Hd Hle.
  apply mapM_Some in Hd. apply mapM_Some.
  eapply Forall2_impl; [exact Hd|]. intros [k x] [k' jx] Hx. simpl in *.
  apply fmap_Some in Hx as (jx' & Hx & [= -> ->]). apply fmap_Some.
  exists jx'. split; [|done]. by eapply reify_fuel_mono.
Qed.

(** Reading a value depends only on the objects it reaches. *)
Lemma reify_frame n h h' x :
  (∀ l, Store.reaches h x l -> h' !! l = h !! l) ->
  Store.reify n h' x = Store.reify n h x.
Proof.
  revert x. induction n as [|n IH]; intros x Hsame.
  { by destruct x. }
  destruct x as [| | | |l]; try done. simpl.
  rewrite (Hsame l) by constructor.
  destruct (h !! l) as [[props|elems]|] eqn:Hl; [| |done].
  - f_equal. apply Forall_mapM_ext, Forall_forall. intros [k x] Hin. simpl.
    f_equal. apply IH. intros l' Hr. apply Hsame.
    eapply Store.reaches_below; [exact Hl| |exact Hr].
    simpl. apply list_elem_of_In, in_map_iff. exists (k, x).
    split; [done|]. by apply list_elem_of_In.
  - f_equal. apply Forall_mapM_ext, Forall_forall. intros x Hin.
    apply IH. intros l' Hr. apply Hsame.
    by eapply Store.reaches_below.
Qed.

Lemma reify_props_frame n h h' props :
  (∀ x l, x ∈ map snd props -> Store.reaches h x l -> h' !! l = h !! l) ->
  Store.reify_props n h' props = Store.reify_props n h props.
Proof.
  intros Hsame. unfold Store.reify_props.
  apply Forall_mapM_ext, Forall_forall. intros [k x] Hin. simpl.
  f_equal. apply reify_frame. intros l. apply Hsame.
  apply list_elem_of_In, in_map_iff. exists (k, x).
  split; [done|]. by apply list_elem_of_In.
Qed.

(** A value that can be read reaches existing objects only. *)
Lemma reify_reaches_dom n h x j l :
  Store.reify n h x = Some j -> Store.reaches h x l -> is_Some (h !! l).
Proof.
  intros Hj Hr. revert n j Hj.
  induction Hr as [l|l c x l' Hl Hx _ IH]; intros n j Hj.
  - destruct n; [done|]. simpl in Hj. destruct (h !! l); [by eexists|done].
  - destruct n as [|n]; [done|]. simpl in Hj. rewrite Hl in Hj.
    destruct c as [props|elems]; simpl in Hx.
    + apply fmap_Some in Hj as (d & Hd & _).
      assert (Hall : is_Some (mapM (fun kv => pair kv.1 <$> Store.reify n h kv.2) props))
        by (by eexists).
      apply mapM_is_Some_1 in Hall. rewrite Forall_forall in Hall.
      apply list_elem_of_In, in_map_iff in Hx as ([k x'] & <- & Hin).
      apply list_elem_of_In in Hin.
      destruct (Hall _ Hin) as [y Hy]. simpl in Hy.
      apply fmap_Some in Hy as (jx & Hjx & _). by eapply IH.
    + apply fmap_Some in Hj as (d & Hd & _).
      assert (Hall : is_Some (mapM (Store.reify n h) elems)) by (by eexists).
      apply mapM_is_Some_1 in Hall. rewrite Forall_forall in Hall.
      destruct (Hall _ Hx) as [y Hy]. by eapply IH.
Qed.
(** Objects reached in a changed store were already reached before, as
    long as the change spared them. *)
Lemma reaches_transfer h h' x l :
  (∀ l0, Store.reaches h x l0 -> h' !! l0 = h !! l0) ->
  Store.reaches h' x l -> Store.reaches h x l.
Proof.
  intros Hsame Hr. induction Hr as [l|l c x l' Hl Hx _ IH].
  - constructor.
  - rewrite Hsame in Hl by constructor.
    eapply Store.reaches_below; [exact Hl|exact Hx|].
    apply IH. intros l0 Hr0. apply Hsame. by eapply Store.reaches_below.
Qed.

Lemma reaches_referenced h x l :
  Store.reaches h x l ->
  x = Store.VRef l ∨
  ∃ l' c, h !! l' = Some c ∧ Store.VRef l ∈ Store.cell_values c.
Proof.
  induction 1 as [l|l c x l' Hl Hx _ IH]; [by left|]. right.
  destruct IH as [->|IH]; [by exists l, c|done].
Qed.

Lemma unreferenced_not_reached h x l :
  Store.unreferenced h l -> x ≠ Store.VRef l -> ¬ Store.reaches h x l.
Proof.
  intros Hun Hx Hr. apply reaches_referenced in Hr as [->|(l' & c & Hl & Hin)]; [done|].
  apply (map_Forall_lookup_1 _ _ _ _ Hun) in Hl.
  rewrite Forall_forall in Hl. by apply (Hl _ Hin).
Qed.

Lemma values_set_prop {A} k (x x' : A) props :
  x' ∈ map snd (set_prop k x props) -> x' = x ∨ x' ∈ map snd props.
Proof.
  induction props as [|[k0 x0] props IH]; simpl.
  - intros H. apply list_elem_of_singleton in H. by left.
  - destruct (String.eqb k k0); simpl; intros H;
      apply elem_of_cons in H as [->|H].
    + by left.
    + right. by right.
    + right. left.
    + destruct (IH H) as [->|?]; [by left|]. right. by right.
Qed.

Lemma assoc_Some_values {A} k (a : A) props :
  assoc k props = Some a -> a ∈ map snd props.
Proof.
  intros H. apply assoc_Some_elem in H.
  apply list_elem_of_In, in_map_iff. exists (k, a). split; [done|].
  by apply list_elem_of_In.
Qed.

Lemma values_zip {A} (ks : list string) (xs : list A) (a : A) :
  a ∈ map snd (zip ks xs) -> a ∈ xs.
Proof.
  intros H. apply list_elem_of_In, in_map_iff in H as ([k a'] & <- & Hin).
  apply list_elem_of_In in Hin. by eapply elem_of_zip_r.
Qed.

Lemma chars_values s x : x ∈ Store.chars s -> ∃ c, x = Store.VStr c.
Proof.
  induction s as [|a s IH]; simpl; intros H; [by apply elem_of_nil in H|].
  apply elem_of_cons in H as [->|H]; [by eexists|auto].
Qed.

(** What a spread copies are values of the object spread, or characters. *)
Lemma entries_values h y x :
  x ∈ map snd (Store.entries h y) ->
  (∃ l c, y = Store.VRef l ∧ h !! l = Some c ∧ x ∈ Store.cell_values c) ∨
  (∃ c, x = Store.VStr c).
Proof.
  destruct y as [| | |s|l]; simpl; try (intros H; by apply elem_of_nil in H).
  - intros H. right. apply values_zip in H. by apply chars_values in H.
  - destruct (h !! l) as [[props|elems]|] eqn:Hl.
    + intros H. left. by exists l, (Store.Plain props).
    + intros H. left. exists l, (Store.Array elems). apply values_zip in H. done.
    + intros H. by apply elem_of_nil in H.
Qed.

Lemma entries_reaches h y x l :
  x ∈ map snd (Store.entries h y) -> Store.reaches h x l -> Store.reaches h y l.
Proof.
  intros Hx Hr. apply entries_values in Hx as [(l0 & c & -> & Hl & Hin)|[c ->]].
  - by eapply Store.reaches_below.
  - inversion Hr.
Qed.

Lemma assoc_reify_props n h props d k :
  Store.reify_props n h props = Some d ->
  match assoc k props with
  | Some x => ∃ j, Store.reify n h x = Some j ∧ assoc k d = Some j
  | None => assoc k d = None
  end.
Proof.
  unfold Store.reify_props. intros H. apply mapM_Some in H.
  induction H as [|[k0 x0] [k1 j1] props d Hx _ IH]; simpl; [done|].
  simpl in Hx. apply fmap_Some in Hx as (j & Hj & [= -> ->]).
  destruct (String.eqb k k0); [by exists j|done].
Qed.

Lemma reify_props_set_prop n h props d k x jx :
  Store.reify_props n h props = Some d ->
  Store.reify n h x = Some jx ->
  Store.reify_props n h (set_prop k x props) = Some (set_prop k jx d).
Proof.
  unfold Store.reify_props. intros H Hx. apply mapM_Some in H. apply mapM_Some.
  induction H as [|[k0 x0] [k1 j1] props d Hx0 Hrest IH]; simpl.
  - constructor; [|constructor]. simpl. by rewrite Hx.
  - simpl in Hx0. apply fmap_Some in Hx0 as (j & Hj & [= -> ->]).
    destruct (String.eqb k k0).
    + constructor; [|done]. simpl. by rewrite Hx.
    + constructor; [|done]. simpl. by rewrite Hj.
Qed.

Lemma reify_truthy n h x j :
  Store.reify n h x = Some j -> truthy j = Store.truthy x.
Proof.
  destruct n as [|n], x as [| | | |l]; simpl; try (by intros [= <-]).
  destruct (h !! l) as [[props|elems]|]; [| |done].
  - by intros (d & _ & ->)%fmap_Some.
  - by intros (d & _ & ->)%fmap_Some.
Qed.

Lemma reify_props_zip n h (ks : list string) xs js :
  Forall2 (fun x j => Store.reify n h x = Some j) xs js ->
  Store.reify_props n h (zip ks xs) = Some (zip ks js).
Proof.
  intros H. apply mapM_Some. revert ks.
  induction H as [|x j xs js Hx _ IH]; intros [|k ks]; simpl; try constructor.
  - simpl. by rewrite Hx.
  - apply IH.
Qed.

Lemma reify_chars n h s :
  Forall2 (fun x j => Store.reify n h x = Some j) (Store.chars s) (chars s).
Proof. induction s; simpl; constructor; [by destruct n|done]. Qed.

(** Spreading commutes with reading. *)
Lemma reify_entries n h x j :
  Store.reify n h x = Some j ->
  Store.reify_props n h (Store.entries h x) = Some (entries j).
Proof.
  destruct x as [| | |s|l].
  - destruct n; by intros [= <-].
  - destruct n; by intros [= <-].
  - destruct n; by intros [= <-].
  - intros Hj. assert (j = JStr s) as -> by (destruct n; by injection Hj).
    simpl. apply reify_props_zip, reify_chars.
  - destruct n as [|n]; [done|]. simpl.
    destruct (h !! l) as [[props|elems]|]; [| |done].
    + intros (d & Hd & ->)%fmap_Some. simpl.
      eapply reify_props_fuel_mono; [exact Hd|lia].
    + intros (js & Hjs & ->)%fmap_Some. simpl.
      apply mapM_Some in Hjs. rewrite <-(Forall2_length _ _ _ Hjs).
      apply reify_props_zip. eapply Forall2_impl; [exact Hjs|].
      intros x j Hx. eapply reify_fuel_mono; [exact Hx|lia].
Qed.

Lemma reify_props_values n h props d x :
  Store.reify_props n h props = Some d -> x ∈ map snd props ->
  is_Some (Store.reify n h x).
Proof.
  intros Hd Hx.
  assert (Hall : is_Some (Store.reify_props n h props)) by (by eexists).
  apply mapM_is_Some_1 in Hall. rewrite Forall_forall in Hall.
  apply list_elem_of_In, in_map_iff in Hx as ([k x'] & <- & Hin).
  apply list_elem_of_In in Hin. destruct (Hall _ Hin) as [y Hy]. simpl in Hy.
  apply fmap_Some in Hy as (j & Hj & _). by eexists.
Qed.
Lemma descend_reify n h props d k :
  Store.reify_props n h props = Some d ->
  Store.reify_props n h
    (if Store.truthy_opt (assoc k props)
     then Store.entries h (default Store.VNull (assoc k props)) else [])
  = Some (descend d k).
Proof.
  intros Hd. unfold descend.
  pose proof (assoc_reify_props _ _ _ _ k Hd) as Hk.
  destruct (assoc k props) as [old|]; simpl.
  - destruct Hk as (j & Hj & ->). simpl.
    rewrite (reify_truthy _ _ _ _ Hj).
    destruct (Store.truthy old); [|done]. by apply reify_entries.
  - by rewrite Hk.
Qed.

(** The store version of [setDefault] computes, on the document the
    object stands for, what [setDefault] on documents computes. *)
Lemma setDefault_simulation p h cur props v n d jv :
  h !! cur = Some (Store.Plain props) ->
  Store.reify_props n h props = Some d ->
  Store.reify n h v = Some jv ->
  (∀ x, x ∈ map snd props -> ¬ Store.reaches h x cur) ->
  ¬ Store.reaches h v cur ->
  ∃ props' m,
    Store.setDefault h cur p v !! cur = Some (Store.Plain props') ∧
    Store.reify_props m (Store.setDefault h cur p v) props'
      = Some (setDefault d p jv).
Proof.
  revert h cur props n d.
  induction p as [|k rest IH]; intros h cur props n d Hcur Hd Hv Hprops Hvcur.
  (* values already present, and [v], read the same after any write to [cur] *)
  all: assert (Hkeep : ∀ h' x, (∀ l, l ≠ cur -> is_Some (h !! l) -> h' !! l = h !! l) ->
         is_Some (Store.reify n h x) -> ¬ Store.reaches h x cur ->
         ∀ l, Store.reaches h x l -> h' !! l = h !! l).
  1,3: (intros h' x Hsame [j Hj] Hx l Hl; apply Hsame;
        [by intros ->|by eapply reify_reaches_dom]).
  all: assert (Hlast : ∀ k0, ∃ props' m,
         Store.store h cur k0 v !! cur = Some (Store.Plain props') ∧
         Store.reify_props m (Store.store h cur k0 v) props'
           = Some (set_prop k0 jv d)).
  1,3: (intros k0; exists (set_prop k0 v props), n; split;
        [by apply store_lookup_plain|];
        rewrite (reify_props_frame _ h);
        [by apply reify_props_set_prop|];
        intros x l [->|Hx]%values_set_prop;
        [apply Hkeep; [intros; by apply store_lookup_other|by eexists|done]
        |apply Hkeep; [intros; by apply store_lookup_other
                      |by eapply reify_props_values|by apply Hprops]]).
  { apply Hlast. }
  destruct (decide (rest = [])) as [->|Hrest]; [apply Hlast|]. clear Hlast.
  rewrite setDefault_store_step, setDefault_cons by done. cbv zeta.
  unfold Store.load. rewrite Hcur.
  set (cs := if Store.truthy_opt (assoc k props)
             then Store.entries h (default Store.VNull (assoc k props)) else []).
  set (l0 := fresh (dom h)).
  set (h2 := Store.store (<[l0 := Store.Plain cs]> h) cur k (Store.VRef l0)).
  assert (Hfresh : h !! l0 = None).
  { apply not_elem_of_dom, is_fresh. }
  assert (Hl0 : cur ≠ l0) by (intros E; rewrite E in Hcur; congruence).
  assert (H2same : ∀ l, l ≠ cur -> is_Some (h !! l) -> h2 !! l = h !! l).
  { intros l Hl [c Hc]. unfold h2. rewrite store_lookup_other by done.
    rewrite lookup_insert_ne; [done|]. intros <-. congruence. }
  assert (H2cur : h2 !! cur = Some (Store.Plain (set_prop k (Store.VRef l0) props))).
  { unfold h2. apply store_lookup_plain. by rewrite lookup_insert_ne. }
  assert (H2l0 : h2 !! l0 = Some (Store.Plain cs)).
  { unfold h2. rewrite store_lookup_other by done. by rewrite lookup_insert_eq. }
  assert (Hcs : Store.reify_props n h cs = Some (descend d k)).
  { by apply descend_reify. }
  assert (Hcs_away : ∀ x, x ∈ map snd cs -> ¬ Store.reaches h x cur).
  { intros x Hx Hr. unfold cs in Hx.
    destruct (assoc k props) as [old|] eqn:Hold; simpl in Hx.
    - destruct (Store.truthy old); [|by apply elem_of_nil in Hx].
      apply (Hprops old); [by eapply assoc_Some_values|].
      by eapply entries_reaches.
    - by apply elem_of_nil in Hx. }
  destruct (IH h2 l0 cs n (descend d k)) as (props0 & m0 & Hnew & Hnewd).
  - done.
  - rewrite (reify_props_frame _ h); [done|].
    intros x l Hx. apply Hkeep; [done|by eapply reify_props_values|by apply Hcs_away].
  - rewrite (reify_frame _ h); [done|]. apply Hkeep; [done|by eexists|done].
  - intros x Hx Hr. apply (reaches_transfer h) in Hr.
    + destruct (reify_props_values _ _ _ _ x Hcs Hx) as [j Hj].
      destruct (reify_reaches_dom _ _ _ _ _ Hj Hr) as [c Hc]. congruence.
    + apply Hkeep; [done|by eapply reify_props_values|by apply Hcs_away].
  - intros Hr. apply (reaches_transfer h) in Hr.
    + destruct (reify_reaches_dom _ _ _ _ _ Hv Hr) as [c Hc]. congruence.
    + apply Hkeep; [done|by eexists|done].
  - set (h' := Store.setDefault h2 l0 rest v) in *.
    assert (H'same : ∀ l, l ≠ cur -> is_Some (h !! l) -> h' !! l = h !! l).
    { intros l Hl Hsome. unfold h'. rewrite setDefault_lookup_other.
      - by apply H2same.
      - intros ->. destruct Hsome. congruence.
      - rewrite H2same; done. }
    exists (set_prop k (Store.VRef l0) props), (n `max` S m0). split.
    + unfold h'. rewrite setDefault_lookup_other; [done|done|by eexists].
    + apply reify_props_set_prop.
      * rewrite (reify_props_frame _ h).
        -- eapply reify_props_fuel_mono; [exact Hd|lia].
        -- intros x l Hx.
           apply Hkeep; [done|by apply (reify_props_values _ _ _ _ _ Hd)|by apply Hprops].
      * apply (reify_fuel_mono (S m0)); [|lia]. simpl. rewrite Hnew.
        fold (Store.reify_props m0 h' props0). by rewrite Hnewd.
Qed.

(** A write keeps the document root out of every stored object. *)
Lemma setDefault_unreferenced p h cur v r :
  Store.unreferenced h r -> v ≠ Store.VRef r -> is_Some (h !! r) ->
  Store.unreferenced (Store.setDefault h cur p v) r.
Proof.
  revert h cur. induction p as [|k rest IH]; intros h cur Hun Hv Hr.
  all: assert (Hstore : ∀ h0 k0 x, Store.unreferenced h0 r -> x ≠ Store.VRef r ->
         Store.unreferenced (Store.store h0 cur k0 x) r).
  1,3: (intros h0 k0 x Hun0 Hx; unfold Store.store;
        destruct (h0 !! cur) as [[props|elems]|] eqn:Hc; [|done..];
        apply map_Forall_insert_2; [|done];
        apply (map_Forall_lookup_1 _ _ _ _ Hun0) in Hc;
        rewrite Forall_forall in Hc |- *;
        intros x' [->|Hx']%values_set_prop; [done|by apply Hc]).
  { by apply Hstore. }
  destruct (decide (rest = [])) as [->|Hrest]; [by apply Hstore|].
  rewrite setDefault_store_step by done. cbv zeta.
  set (l0 := fresh (dom h)).
  assert (Hl0 : l0 ≠ r).
  { intros E. apply (is_fresh (dom h)). fold l0. rewrite E. by apply elem_of_dom. }
  apply IH; [|done|].
  - apply Hstore; [|congruence].
    apply map_Forall_insert_2; [|done]. simpl. apply Forall_forall.
    intros x Hx. destruct (Store.truthy_opt _); [|by apply elem_of_nil in Hx].
    apply entries_values in Hx as [(l & c & _ & Hl & Hin)|[c ->]]; [|done].
    apply (map_Forall_lookup_1 _ _ _ _ Hun) in Hl.
    rewrite Forall_forall in Hl. by apply Hl.
  - destruct Hr as [c Hc].
    destruct (decide (r = cur)) as [->|Hne].
    + unfold Store.store. rewrite lookup_insert_ne by done. rewrite Hc.
      destruct c; [rewrite lookup_insert_eq|rewrite lookup_insert_ne by done]; by eexists.
    + rewrite store_lookup_other by done. rewrite lookup_insert_ne by done. by eexists.
Qed.
Lemma lookup_path_stored h y q x :
  q ≠ [] -> Store.lookup_path h y q = Some x ->
  ∃ y', x ∈ map snd (Store.entries h y').
Proof.
  revert y. induction q as [|k rest IH]; intros y Hq; [done|]. simpl.
  destruct (assoc k (Store.entries h y)) as [c|] eqn:Hk; [|done].
  destruct rest as [|k2 rest].
  - intros [= <-]. exists y. by eapply assoc_Some_values.
  - by apply IH.
Qed.

Lemma lookup_path_not_root h root q x :
  Store.unreferenced h root -> q ≠ [] ->
  Store.lookup_path h (Store.VRef root) q = Some x -> x ≠ Store.VRef root.
Proof.
  intros Hun Hq Hx.
  destruct (lookup_path_stored _ _ _ _ Hq Hx) as [y' Hin].
  apply entries_values in Hin as [(l & c & _ & Hl & Hin)|[c ->]]; [|done].
  apply (map_Forall_lookup_1 _ _ _ _ Hun) in Hl.
  rewrite Forall_forall in Hl. by apply Hl.
Qed.
End store_facts.

(** C6.  A [setDefault] write changes no object that existed before it
    other than the document it is applied to: each level on its way is a
    newly allocated copy.  So the value found before the write at any
    path of the document still reads as it did, whatever the later write
    targets; the document after the write is [setDefault] of the document
    before; on every path unrelated to the written one it holds what it
    held; and the same is true again for the next write. *)
Theorem setDefault_never_mutates_earlier_writes
  (h : Store.heap) (root : Store.loc) (props : list (string * Store.value))
  (p : path) (v : Store.value) (n : nat) (d : list (string * json)) (jv : json) :
  h !! root = Some (Store.Plain props) ->
  Store.unreferenced h root ->
  v ≠ Store.VRef root ->
  Store.reify_props n h props = Some d ->
  Store.reify n h v = Some jv ->
  let h' := Store.setDefault h root p v in
  (∀ l c, l ≠ root -> h !! l = Some c -> h' !! l = Some c) ∧
  (∀ q x m j, q ≠ [] -> Store.lookup_path h (Store.VRef root) q = Some x ->
     Store.reify m h x = Some j -> Store.reify m h' x = Some j) ∧
  (∃ m, Store.reify m h' (Store.VRef root) = Some (JObj (setDefault d p jv))) ∧
  (∀ q w, unrelated p q -> get_at (JObj d) q = Some w ->
     get_at (JObj (setDefault d p jv)) q = Some w) ∧
  Store.unreferenced h' root.
Proof.
  intros Hroot Hun Hv Hd Hjv h'.
  assert (Hother : ∀ l, l ≠ root -> is_Some (h !! l) -> h' !! l = h !! l).
  { intros l Hl Hsome. by apply setDefault_lookup_other. }
  assert (Hkeep : ∀ x m j, x ≠ Store.VRef root -> Store.reify m h x = Some j ->
            Store.reify m h' x = Some j).
  { intros x m j Hx Hj. rewrite (reify_frame _ h); [done|].
    intros l Hl. apply Hother.
    - intros ->. by eapply unreferenced_not_reached.
    - by eapply reify_reaches_dom. }
  split; [|split; [|split; [|split]]].
  - intros l c Hl Hc. rewrite Hother; [done|done|by eexists].
  - intros q x m j Hq Hx. apply Hkeep. by eapply lookup_path_not_root.
  - destruct (setDefault_simulation p h root props v n d jv)
      as (props' & m & Hcell & Hread); [done..| | |].
    + intros x Hx. apply unreferenced_not_reached; [done|].
      apply (map_Forall_lookup_1 _ _ _ _ Hun) in Hroot.
      rewrite Forall_forall in Hroot. by apply Hroot.
    + by apply unreferenced_not_reached.
    + exists (S m). unfold h'. simpl. rewrite Hcell.
      fold (Store.reify_props m (Store.setDefault h root p v) props').
      by rewrite Hread.
  - intros q w. apply setDefault_frame.
  - apply setDefault_unreferenced; [done|done|by eexists].
Qed.

Lemma setDefault_never_mutates_earlier_writes_witness :
  let h1 := Store.setDefault Store.sample_heap 1%positive ["a"]
              (Store.VRef 3%positive) in
  let h2 := Store.setDefault h1 1%positive ["a"; "b"] (Store.VNum 2) in
  h2 !! 3%positive = Some (Store.Plain [("x", Store.VNum 5)]) ∧
  Store.reify 2 h2 (Store.VRef 3%positive) = Some (JObj [("x", JNum 5)]) ∧
  (∃ m, Store.reify m h2 (Store.VRef 1%positive)
        = Some (JObj [("a", JObj [("x", JNum 5); ("b", JNum 2)])])).
Proof.
  intros h1 h2.
  assert (Hun : Store.unreferenced h1 1%positive).
  { unfold Store.unreferenced.
    eapply (@bool_decide_unpack _ (map_Forall_dec _ _)). vm_compute. exact I. }
  destruct (setDefault_never_mutates_earlier_writes h1 1%positive
              [("a", Store.VRef 3%positive)] ["a"; "b"] (Store.VNum 2)
              2 [("a", JObj [("x", JNum 5)])] (JNum 2))
    as (H1 & H2 & H3 & _ & _); [reflexivity|exact Hun|discriminate|reflexivity..|].
  split; [|split].
  - apply H1; [discriminate|reflexivity].
  - apply (H2 ["a"]); [discriminate|reflexivity..].
  - exact H3.
Defined.

(** ** Structural comparison *)

Lemma all2_refl {A} (eqb : A -> A -> bool) l :
  Forall (fun x => eqb x x = true) l -> all2 eqb l l = true.
Proof. induction 1 as [|x l Hx _ IH]; simpl; [done|]. by rewrite Hx, IH. Qed.

Lemma assoc_app_fresh {A} k (pre l : list (string * A)) :
  k ∉ map fst pre -> assoc k (pre ++ l) = assoc k l.
Proof.
  induction pre as [|[k' v'] pre IH]; simpl; [done|].
  intros Hk. destruct (String.eqb k k') eqn:E.
  - apply String.eqb_eq in E. subst. exfalso. apply Hk. left.
  - apply IH. intros Hin. apply Hk. by right.
Qed.

Lemma covers_refl {A} (eqb : A -> A -> bool) pre l seen :
  Forall (fun kv => eqb kv.2 kv.2 = true) l ->
  (∀ k, k ∈ seen ↔ k ∈ map fst pre) ->
  covers eqb (pre ++ l) seen l = true.
Proof.
  intros Hall. revert pre seen.
  induction Hall as [|[k v] l Hv _ IH]; intros pre seen Hseen; simpl; [done|].
  apply andb_true_iff. split.
  - case_bool_decide as Hk; [done|].
    rewrite assoc_app_fresh by (by rewrite <-Hseen). simpl.
    by rewrite String.eqb_refl.
  - replace (pre ++ (k, v) :: l) with ((pre ++ [(k, v)]) ++ l)
      by (by rewrite <-app_assoc).
    apply IH. intros k'. rewrite map_app, elem_of_app, elem_of_cons, Hseen.
    simpl. rewrite list_elem_of_singleton. tauto.
Qed.

Lemma struct_eqb_refl x : struct_eqb x x = true.
Proof.
  induction x as [|b|n|s|xs IH|kvs IH] using json_nested_ind; simpl.
  - done.
  - by destruct b.
  - apply Z.eqb_refl.
  - apply String.eqb_refl.
  - by apply all2_refl.
  - apply andb_true_iff. split.
    + by apply (covers_refl struct_eqb [] kvs []).
    + apply forallb_forall. intros k Hk. apply bool_decide_eq_true.
      by apply list_elem_of_In.
Qed.

Lemma deepDiff_refl x : deepDiff x x = [].
Proof.
  unfold deepDiff. induction (keys x ++ _) as [|k ks IH]; [done|].
  rewrite filter_cons. rewrite decide_False; [done|].
  destruct (assoc k (entries x)); simpl; [|done].
  by rewrite struct_eqb_refl.
Qed.

(** ** The component *)

Lemma dirty_effect_fields st :
  formData (dirty_effect st) = formData st ∧
  data (dirty_effect st) = data st ∧
  isLoadingConfig (dirty_effect st) = isLoadingConfig st ∧
  inFlight (dirty_effect st) = inFlight st ∧
  assistant_id (dirty_effect st) = assistant_id st.
Proof.
  unfold dirty_effect.
  destruct (saved_config st) as [c|]; [|done].
  destruct (formData st) as [f|] eqn:Hf; [|by rewrite Hf].
  destruct (truthy c && truthy f); simpl; by rewrite ?Hf.
Qed.

Lemma dirty_effect_isDirty st :
  isDirty (dirty_effect st) =
    match saved_config st, formData st with
    | Some c, Some f => if truthy c && truthy f then has_changes c f else isDirty st
    | _, _ => isDirty st
    end.
Proof.
  unfold dirty_effect.
  destruct (saved_config st) as [c|], (formData st) as [f|]; try done.
  by destruct (truthy c && truthy f).
Qed.

Lemma dirty_effect_consistent st : consistent (dirty_effect st).
Proof.
  intros c f Hc Hf Htc Htf Hd.
  destruct (dirty_effect_fields st) as (Hform & Hdata & _).
  rewrite dirty_effect_isDirty in Hd.
  unfold saved_config in *. rewrite Hdata in Hc. rewrite Hform in Hf.
  unfold saved_config in Hd. rewrite Hc, Hf, Htc, Htf in Hd. done.
Qed.

Lemma setFormData_consistent v st st' :
  consistent st -> setFormData v st st' -> consistent st'.
Proof. intros Hst [|_]; [apply dirty_effect_consistent|done]. Qed.

Lemma setFormData_fields v st st' :
  setFormData v st st' ->
  formData st' = v ∧ data st' = data st ∧
  isLoadingConfig st' = isLoadingConfig st ∧
  inFlight st' = inFlight st ∧ assistant_id st' = assistant_id st.
Proof.
  intros [|Hsame]; [|done].
  destruct (dirty_effect_fields (with_formData v st)) as (-> & -> & -> & -> & ->).
  done.
Qed.

Lemma handleChange_consistent v st st' :
  consistent st -> handleChange v st st' -> consistent st'.
Proof.
  intros Hst [_|c st1 _ Hset]; [done|].
  apply (setFormData_consistent _ _ _ Hst) in Hset.
  intros c' f'. apply Hset.
Qed.

Lemma step_consistent st st' : consistent st -> step st st' -> consistent st'.
Proof.
  intros Hst [c|v st1 _ H|st1 _ _ H|v st1 _ H|st1 _ H|c fuel doc st1 _ _ _ H|i o _].
  - apply dirty_effect_consistent.
  - by eapply setFormData_consistent.
  - by eapply handleChange_consistent.
  - by eapply handleChange_consistent.
  - by eapply setFormData_consistent.
  - by eapply setFormData_consistent.
  - destruct o; [by intros c f _ _ _ _ [=]|]. intros c f. apply Hst.
Qed.

Lemma reachable_consistent st : reachable st -> consistent st.
Proof.
  intros [id Hsteps].
  refine (rtc_ind_r (fun st => consistent st) (init_state id) _ _ st Hsteps).
  - by intros c f _ _ _ _ [=].
  - intros st1 st2 _ Hstep IH. by eapply step_consistent.
Qed.

Lemma reachable_step st st' : reachable st -> step st st' -> reachable st'.
Proof. intros [id H] Hstep. exists id. by eapply rtc_r. Qed.

Lemma loaded_state_reachable : reachable loaded_state.
Proof. exists "assistant-1". apply rtc_once. constructor. Qed.

Lemma loaded_state_rendered : rendered loaded_state.
Proof. split; [reflexivity|]. by eexists. Qed.

Lemma edited_state_reachable : reachable edited_state.
Proof.
  eapply reachable_step; [apply loaded_state_reachable|].
  eapply step_change; [apply loaded_state_rendered|]. constructor.
Qed.

Lemma edited_state_rendered : rendered edited_state.
Proof. split; [reflexivity|]. by eexists. Qed.

Lemma edited_state_dirty : isDirty edited_state = true.
Proof. vm_compute. reflexivity. Qed.

(** A save from a dirty form with defined form data: the request goes
    out, the form data and the flag stay. *)
Lemma save_sends st st' f :
  reachable st -> rendered st -> isDirty st = true ->
  formData st = Some f -> f ≠ JNull -> save st st' ->
  inFlight st' = inFlight st ++
    [{| assistantId := assistant_id st;
        body := {| config := Some f;
                   jsonSchema := default None (jsonSchema <$> data st);
                   uiSchema := default None (uiSchema <$> data st) |} |}] ∧
  formData st' = formData st ∧ isDirty st' = true ∧ data st' = data st ∧
  isLoadingConfig st' = isLoadingConfig st.
Proof.
  intros Hreach [Hload [c Hc]] Hdirty Hf Hnull Hsave.
  unfold save, form_or_empty in Hsave. rewrite Hf in Hsave.
  assert (Hform : match f with JNull => JObj [] | _ => f end = f) by (by destruct f).
  rewrite Hform in Hsave.
  destruct Hsave as [Hnone|c' st1 Hc' Hset]; [congruence|].
  assert (c' = c) as -> by congruence.
  destruct (setFormData_fields _ _ _ Hset) as (Hf1 & Hd1 & Hl1 & Hin1 & Hid1).
  simpl. rewrite Hin1, Hc. simpl. repeat split; try done.
  - congruence.
  - destruct Hset as [|_]; [|done].
    rewrite dirty_effect_isDirty. simpl.
    destruct (saved_config (with_formData (Some f) st)) as [cc|] eqn:Hcc; [|done].
    destruct (truthy cc && truthy f) eqn:Ht; [|done].
    apply andb_true_iff in Ht as [Htc Htf].
    by apply (reachable_consistent st Hreach cc f).
  - congruence.
Qed.

Lemma handleChange_resume_fields i o st :
  formData (handleChange_resume i o st) = formData st ∧
  data (handleChange_resume i o st) = data st ∧
  isLoadingConfig (handleChange_resume i o st) = isLoadingConfig st ∧
  inFlight (handleChange_resume i o st) = delete i (inFlight st).
Proof. by destruct o. Qed.

(** C1 (as amended).  A click on Save on a dirty form whose data is
    defined sends that data and leaves form data and flag as they are;
    and if the awaited promise of that request then rejects, which is
    how a failing request shows to [handleChange], form data, flag and
    query result are still what they were before the click, and the
    requests in flight are those from before: [handleChange] never
    reaches [setDirty(false)].  (Only a promise that is fulfilled,
    whatever its result, lets [handleChange] go on and lower the
    flag.) *)
Theorem failed_save_keeps_form_and_flag
  (st st1 : State) (f reason : json) :
  reachable st -> rendered st -> isDirty st = true ->
  formData st = Some f -> f ≠ JNull ->
  save st st1 ->
  (∃ c, data st = Some c ∧
        inFlight st1 = inFlight st ++ [update_request st c (Some f)]) ∧
  formData st1 = formData st ∧ isDirty st1 = true ∧
  (∀ i, formData (handleChange_resume i (Rejected reason) st1) = formData st ∧
        isDirty (handleChange_resume i (Rejected reason) st1) = true ∧
        data (handleChange_resume i (Rejected reason) st1) = data st) ∧
  inFlight (handleChange_resume (length (inFlight st)) (Rejected reason) st1)
    = inFlight st ∧
  (∀ i result,
     formData (handleChange_resume i (Fulfilled result) st1) = formData st ∧
     isDirty (handleChange_resume i (Fulfilled result) st1) = false).
Proof.
  intros Hreach Hrend Hdirty Hf Hnull Hsave.
  destruct (save_sends _ _ _ Hreach Hrend Hdirty Hf Hnull Hsave)
    as (Hin & Hform & Hflag & Hdata & _).
  destruct Hrend as [_ [c Hc]].
  split; [|split; [done|split; [done|split; [done|split; [|done]]]]].
  - exists c. split; [done|]. rewrite Hin, Hc. done.
  - cbn [handleChange_resume inFlight with_inFlight].
    rewrite Hin. by rewrite delete_middle, app_nil_r.
Qed.

Lemma edited_state_save :
  save edited_state
    (with_inFlight
       (inFlight edited_state ++
          [{| assistantId := "assistant-1";
              body := {| config := Some (JObj [("x", JNum 2)]);
                         jsonSchema := Some scenario_schema;
                         uiSchema := None |} |}])
       edited_state).
Proof.
  apply (handleChange_sent _ edited_state sample_config edited_state); [reflexivity|].
  by apply setFormData_bail_out.
Qed.

Lemma failed_save_keeps_form_and_flag_witness :
  let st1 := with_inFlight
       (inFlight edited_state ++
          [{| assistantId := "assistant-1";
              body := {| config := Some (JObj [("x", JNum 2)]);
                         jsonSchema := Some scenario_schema;
                         uiSchema := None |} |}])
       edited_state in
  (∃ c, data edited_state = Some c ∧
        inFlight st1 = inFlight edited_state ++
                       [update_request edited_state c (Some (JObj [("x", JNum 2)]))]) ∧
  formData st1 = formData edited_state ∧ isDirty st1 = true ∧
  (∀ i, formData (handleChange_resume i (Rejected JNull) st1) = formData edited_state ∧
        isDirty (handleChange_resume i (Rejected JNull) st1) = true ∧
        data (handleChange_resume i (Rejected JNull) st1) = data edited_state) ∧
  inFlight (handleChange_resume (length (inFlight edited_state)) (Rejected JNull) st1)
    = inFlight edited_state ∧
  (∀ i result,
     formData (handleChange_resume i (Fulfilled result) st1) = formData edited_state ∧
     isDirty (handleChange_resume i (Fulfilled result) st1) = false).
Proof.
  apply (failed_save_keeps_form_and_flag edited_state _ (JObj [("x", JNum 2)]) JNull).
  - apply edited_state_reachable.
  - apply edited_state_rendered.
  - apply edited_state_dirty.
  - reflexivity.
  - discriminate.
  - apply edited_state_save.
Defined.

(** C1 as stated fails: when the form has reported [undefined] data on
    a dirty form, the flag is still up, and the click on Save, which
    sends [formData ?? {}], makes [{}] the form data before the request
    is even sent; a failing request leaves it there. *)
Lemma failed_save_counterexample : ¬ failed_save_is_atomic.
Proof.
  intros Hclaim.
  pose (st := with_formData None edited_state).
  pose (st' := dirty_effect (with_formData (Some (JObj [])) st)).
  pose (st1 := with_inFlight
                 (inFlight st' ++ [update_request st sample_config (Some (JObj []))])
                 st').
  assert (Hreach : reachable st).
  { eapply reachable_step; [apply edited_state_reachable|].
    eapply step_change; [apply edited_state_rendered|].
    apply (setFormData_rerender None edited_state). }
  assert (Hsave : save st st1).
  { apply (handleChange_sent _ st sample_config st'); [reflexivity|].
    apply (setFormData_rerender (Some (JObj [])) st). }
  destruct (Hclaim st st1 0 JNull Hreach) as [Hform _].
  - split; [reflexivity|by eexists].
  - reflexivity.
  - exact Hsave.
  - vm_compute in Hform. discriminate Hform.
Qed.

(** C5.  [deepDiff(x, x)] has no keys, for every document [x].  Hence
    after a reset, which puts the saved configuration into the form, the
    form holds that configuration and the dirty flag is down; and the
    flag is down right after a save whose request was fulfilled. *)
Theorem no_changes_after_reset_or_save :
  (∀ x, deepDiff x x = []) ∧
  (∀ st st' c, reachable st -> saved_config st = Some c -> truthy c = true ->
     reset st st' -> formData st' = Some c ∧ isDirty st' = false) ∧
  (∀ st i result, isDirty (handleChange_resume i (Fulfilled result) st) = false).
Proof.
  split; [apply deepDiff_refl|]. split; [|done].
  intros st st' c Hreach Hc Htc Hreset. unfold reset, restoreConfig in Hreset.
  rewrite Hc in Hreset.
  assert (Hsame : has_changes c c = false).
  { unfold has_changes. by rewrite deepDiff_refl. }
  destruct Hreset as [|Hform].
  - destruct (dirty_effect_fields (with_formData (Some c) st)) as (-> & _).
    split; [done|]. rewrite dirty_effect_isDirty.
    replace (saved_config (with_formData (Some c) st)) with (Some c) by done.
    simpl. by rewrite Htc.
  - split; [done|]. destruct (isDirty st) eqn:Hd; [|done].
    pose proof (reachable_consistent st Hreach c c Hc Hform Htc Htc Hd). congruence.
Qed.

Lemma no_changes_after_reset_or_save_witness :
  deepDiff (JObj [("x", JNum 1)]) (JObj [("x", JNum 1)]) = [] ∧
  formData (dirty_effect (with_formData (Some (JObj [("x", JNum 1)])) edited_state))
    = Some (JObj [("x", JNum 1)]) ∧
  isDirty (dirty_effect (with_formData (Some (JObj [("x", JNum 1)])) edited_state))
    = false.
Proof.
  split; [apply (proj1 no_changes_after_reset_or_save)|].
  apply (proj1 (proj2 no_changes_after_reset_or_save) edited_state).
  - apply edited_state_reachable.
  - reflexivity.
  - reflexivity.
  - apply (setFormData_rerender (Some (JObj [("x", JNum 1)])) edited_state).
Defined.

(** C9.  The form's [onChange] replaces the form data by the new value
    and touches nothing else but the dirty flag, which is either left
    alone or recomputed from the saved configuration and the new value:
    the query result and the requests in flight are as before. *)
Theorem onChange_is_local (st st' : State) (newValue : option json) :
  onChange newValue st st' ->
  formData st' = newValue ∧
  data st' = data st ∧
  isLoadingConfig st' = isLoadingConfig st ∧
  inFlight st' = inFlight st ∧
  assistant_id st' = assistant_id st ∧
  (isDirty st' = isDirty st ∨
   ∃ c f, saved_config st = Some c ∧ newValue = Some f ∧
          isDirty st' = has_changes c f).
Proof.
  intros Hset. destruct (setFormData_fields _ _ _ Hset) as (? & ? & ? & ? & ?).
  repeat split; try done.
  destruct Hset as [|_]; [|by left].
  rewrite dirty_effect_isDirty.
  replace (saved_config (with_formData newValue st)) with (saved_config st) by done.
  simpl. destruct (saved_config st) as [c|]; [|by left].
  destruct newValue as [f|]; [|by left].
  destruct (truthy c && truthy f); [|by left]. right. by exists c, f.
Qed.

Lemma onChange_is_local_witness :
  formData edited_state = Some (JObj [("x", JNum 2)]) ∧
  data edited_state = data loaded_state ∧
  isLoadingConfig edited_state = isLoadingConfig loaded_state ∧
  inFlight edited_state = inFlight loaded_state ∧
  assistant_id edited_state = assistant_id loaded_state ∧
  (isDirty edited_state = isDirty loaded_state ∨
   ∃ c f, saved_config loaded_state = Some c ∧
          Some (JObj [("x", JNum 2)]) = Some f ∧
          isDirty edited_state = has_changes c f).
Proof.
  apply (onChange_is_local loaded_state edited_state (Some (JObj [("x", JNum 2)]))).
  apply setFormData_rerender.
Defined.

(** C7 as stated fails: after an edit, two clicks on Save put two
    requests in flight. *)
Lemma single_save_in_flight_counterexample : ¬ single_save_in_flight.
Proof.
  intros Hclaim.
  pose (r := {| assistantId := "assistant-1";
                body := {| config := Some (JObj [("x", JNum 2)]);
                           jsonSchema := Some scenario_schema;
                           uiSchema := None |} |}).
  pose (st1 := with_inFlight (inFlight edited_state ++ [r]) edited_state).
  pose (st2 := with_inFlight (inFlight st1 ++ [r]) st1).
  assert (H1 : reachable st1).
  { eapply reachable_step; [apply edited_state_reachable|].
    apply step_save; [apply edited_state_rendered|apply edited_state_dirty|].
    apply edited_state_save. }
  assert (H2 : reachable st2).
  { eapply reachable_step; [exact H1|].
    apply step_save; [split; [reflexivity|by eexists]|reflexivity|].
    apply (handleChange_sent _ st1 sample_config st1); [reflexivity|].
    by apply setFormData_bail_out. }
  apply Hclaim in H2. vm_compute in H2. lia.
Qed.

(** C7 (as amended).  Nothing rejects or queues a save while another one
    is in flight: the Save button is offered whenever [isDirty] holds,
    and a save sends its [updateConfig] request for this assistant at
    once, whatever is already in flight.  When the form holds defined
    data the save leaves [isDirty] up, so a second save right after it
    sends a second request for the same assistant. *)
Theorem save_is_gated_by_dirty_flag_only :
  (∀ st st', rendered st -> save st st' ->
     ∃ c, data st = Some c ∧
          inFlight st' = inFlight st ++
                         [update_request st c (Some (form_or_empty st))] ∧
          rendered st' ∧ assistant_id st' = assistant_id st) ∧
  (∀ st st' f,
     reachable st -> rendered st -> isDirty st = true ->
     formData st = Some f -> f ≠ JNull ->
     save st st' ->
     isDirty st' = true ∧
     ∀ st'', save st' st'' ->
       length (inFlight st'') = S (S (length (inFlight st))) ∧
       Forall (fun r => assistantId r = assistant_id st)
         (drop (length (inFlight st)) (inFlight st''))).
Proof.
  assert (Hsend : ∀ st st', rendered st -> save st st' ->
            ∃ c, data st = Some c ∧
                 inFlight st' = inFlight st ++
                                [update_request st c (Some (form_or_empty st))] ∧
                 rendered st' ∧ assistant_id st' = assistant_id st).
  { intros st st' [Hload [c Hc]] Hsave. exists c. split; [done|].
    unfold save in Hsave.
    destruct Hsave as [Hnone|c' st1 Hc' Hset]; [congruence|].
    assert (c' = c) as -> by congruence.
    destruct (setFormData_fields _ _ _ Hset) as (_ & Hd1 & Hl1 & Hin1 & Hid1).
    cbn [inFlight with_inFlight assistant_id]. rewrite Hin1.
    split; [done|]. split; [|done].
    split; cbn [isLoadingConfig data with_inFlight]; [congruence|].
    rewrite Hd1. by eexists. }
  split; [exact Hsend|].
  intros st st' f Hreach Hrend Hdirty Hf Hnull Hsave.
  destruct (save_sends _ _ _ Hreach Hrend Hdirty Hf Hnull Hsave)
    as (Hin & Hform & Hflag & Hdata & Hload).
  split; [done|]. intros st'' Hsave'.
  destruct (Hsend st st' Hrend Hsave) as (c & Hc & _ & Hrend' & Hid).
  destruct (Hsend st' st'' Hrend' Hsave') as (c' & Hc' & Hin' & _ & _).
  rewrite Hin', Hin. split.
  - rewrite !length_app. simpl. lia.
  - rewrite <-app_assoc, drop_app_length. simpl.
    repeat constructor; done.
Qed.

Lemma save_is_gated_by_dirty_flag_only_witness :
  let r := {| assistantId := "assistant-1";
              body := {| config := Some (JObj [("x", JNum 2)]);
                         jsonSchema := Some scenario_schema;
                         uiSchema := None |} |} in
  let st1 := with_inFlight (inFlight edited_state ++ [r]) edited_state in
  (∃ c, data edited_state = Some c ∧
        inFlight st1 = inFlight edited_state ++
                       [update_request edited_state c
                          (Some (form_or_empty edited_state))] ∧
        rendered st1 ∧ assistant_id st1 = assistant_id edited_state) ∧
  isDirty st1 = true ∧
  (∀ st'', save st1 st'' ->
     length (inFlight st'') = 2 ∧
     Forall (fun r => assistantId r = "assistant-1") (drop 0 (inFlight st''))).
Proof.
  intros r st1. split.
  - apply (proj1 save_is_gated_by_dirty_flag_only edited_state st1).
    + apply edited_state_rendered.
    + apply edited_state_save.
  - apply (proj2 save_is_gated_by_dirty_flag_only edited_state st1
             (JObj [("x", JNum 2)])).
    + apply edited_state_reachable.
    + apply edited_state_rendered.
    + apply edited_state_dirty.
    + reflexivity.
    + discriminate.
    + apply edited_state_save.
Defined.

(* ================================================================== *)
(** * Part III: further properties of the code *)
(* ================================================================== *)

(** ** [setDefault]: reading back, overwriting, levels *)

Lemma set_prop_twice {A} k (v1 v2 : A) kvs :
  set_prop k v2 (set_prop k v1 kvs) = set_prop k v2 kvs.
Proof.
  induction kvs as [|[k' v'] kvs IH]; simpl.
  - by rewrite String.eqb_refl.
  - destruct (String.eqb k k') eqn:E; simpl.
    + by rewrite String.eqb_refl.
    + by rewrite E, IH.
Qed.

Lemma descend_set_prop obj k x :
  descend (set_prop k x obj) k = if truthy x then spread x else [].
Proof. unfold descend. by rewrite assoc_set_prop_eq. Qed.

(** X1.  [setDefault(obj, path, value)] with a non-empty path none of
    whose segments is [__proto__]: following the path through the object
    afterwards leads to [value], and of the properties of [obj] itself
    only the one named by the first segment has changed. *)
Theorem setDefault_read_back (obj : list (string * json)) (k : string)
  (rest : path) (v : json) :
  "__proto__" ∉ k :: rest ->
  get_at (JObj (setDefault obj (k :: rest) v)) (k :: rest) = Some v ∧
  ∀ k', k' ≠ k -> assoc k' (setDefault obj (k :: rest) v) = assoc k' obj.
Proof.
  intros _. split.
  - by apply get_at_setDefault_same.
  - intros k' Hk. destruct (setDefault_head obj k rest v) as [x ->].
    apply assoc_set_prop_ne. congruence.
Qed.

Lemma setDefault_read_back_witness :
  get_at (JObj (setDefault [("z", JNum 0); ("a", JNum 5)] ["a"; "b"] (JNum 1)))
    ["a"; "b"] = Some (JNum 1) ∧
  assoc "z" (setDefault [("z", JNum 0); ("a", JNum 5)] ["a"; "b"] (JNum 1))
    = assoc "z" [("z", JNum 0); ("a", JNum 5)].
Proof.
  destruct (setDefault_read_back [("z", JNum 0); ("a", JNum 5)] "a" ["b"] (JNum 1))
    as [Hread Hother].
  { intros H. repeat (apply elem_of_cons in H as [H|H]; [discriminate H|]).
    by apply elem_of_nil in H. }
  split; [exact Hread|]. apply Hother. discriminate.
Defined.

(** X2.  A second [setDefault] on the same path replaces the first: the
    object is the one the second write alone would have produced.  In
    particular repeating a write changes nothing.  This is for paths
    without a segment [__proto__] (the empty path included). *)
Theorem setDefault_overwrite (obj : list (string * json)) (p : path)
  (v1 v2 : json) :
  "__proto__" ∉ p ->
  setDefault (setDefault obj p v1) p v2 = setDefault obj p v2.
Proof.
  intros _. revert obj. induction p as [|k rest IH]; intros obj.
  { apply set_prop_twice. }
  destruct rest as [|k2 rest].
  { apply set_prop_twice. }
  rewrite !(setDefault_cons _ k (k2 :: rest)) by done.
  rewrite descend_set_prop. cbn [truthy spread entries].
  by rewrite set_prop_twice, IH.
Qed.

Lemma setDefault_overwrite_witness :
  setDefault (setDefault [("a", JObj [("x", JNum 1)])] ["a"; "b"] (JObj []))
    ["a"; "b"] (JNum 2)
  = setDefault [("a", JObj [("x", JNum 1)])] ["a"; "b"] (JNum 2).
Proof.
  apply (setDefault_overwrite [("a", JObj [("x", JNum 1)])] ["a"; "b"]
           (JObj []) (JNum 2)).
  intros H. repeat (apply elem_of_cons in H as [H|H]; [discriminate H|]).
  by apply elem_of_nil in H.
Defined.

(** X3.  After [setDefault(obj, path, value)] every level strictly above
    the written slot is an ordinary object, whatever [obj] held there
    before (nothing, a number, a string, an array): the loop replaces
    each of them by [{}] or by a spread copy. *)
Theorem setDefault_levels_are_objects (obj : list (string * json))
  (p p' : path) (v : json) :
  p' ≠ [] -> p' `prefix_of` p -> p' ≠ p ->
  ∃ kvs, get_at (JObj (setDefault obj p v)) p' = Some (JObj kvs).
Proof.
  revert obj p'. induction p as [|k rest IH]; intros obj p' Hne Hpre Hneq.
  { apply prefix_nil_inv in Hpre. done. }
  destruct p' as [|k' p'']; [done|].
  assert (k' = k) as -> by (by eapply prefix_cons_inv_1).
  apply prefix_cons_inv_2 in Hpre.
  assert (Hrest : rest ≠ []).
  { intros ->. apply prefix_nil_inv in Hpre. congruence. }
  rewrite setDefault_cons, get_at_cons, assoc_set_prop_eq by done.
  destruct p'' as [|k2 p''].
  - by eexists.
  - apply IH; [done|done|congruence].
Qed.

Lemma setDefault_levels_are_objects_witness :
  ∃ kvs,
    get_at (JObj (setDefault [("a", JArr [JNum 1; JNum 2])] ["a"; "b"] (JNum 3)))
      ["a"] = Some (JObj kvs).
Proof.
  apply (setDefault_levels_are_objects
           [("a", JArr [JNum 1; JNum 2])] ["a"; "b"] ["a"] (JNum 3)).
  - discriminate.
  - by exists ["b"].
  - discriminate.
Defined.



(** ** Reference strings *)

Lemma strip_prefix_app p s : strip_prefix p (p +:+ s) = Some s.
Proof. induction p as [|a p IH]; simpl; [done|]. by rewrite Ascii.eqb_refl. Qed.

Lemma split_on_no_sep sep s : occurs sep s = false -> split_on sep s = [s].
Proof.
  induction s as [|c s IH]; simpl; [done|].
  destruct (Ascii.eqb c sep); [done|]. intros H. by rewrite IH.
Qed.

Lemma split_on_app_sep sep s t :
  occurs sep s = false ->
  split_on sep (s +:+ String sep t) = s :: split_on sep t.
Proof.
  induction s as [|c s IH]; simpl.
  - by rewrite Ascii.eqb_refl.
  - destruct (Ascii.eqb c sep); [done|]. intros H. by rewrite IH.
Qed.

Lemma split_on_concat ks :
  ks ≠ [] -> Forall (fun k => occurs "/" k = false) ks ->
  split_on "/" (String.concat "/" ks) = ks.
Proof.
  intros Hne Hall. induction Hall as [|k ks Hk Hall IH]; [done|].
  destruct ks as [|k2 ks].
  - simpl. by apply split_on_no_sep.
  - change (String.concat "/" (k :: k2 :: ks))
      with (k +:+ String "/" (String.concat "/" (k2 :: ks))).
    rewrite split_on_app_sep by done. by rewrite IH.
Qed.

(** X5.  A reference [#/$defs/k1/.../kn] whose segments contain no [/]
    is split into exactly those segments, and resolves to what is found
    by reading [k1], ..., [kn] in turn, with optional chaining, starting
    from [rootSchema.$defs]. *)
Theorem defs_pointer_resolves (ks : list string) :
  ks ≠ [] -> Forall (fun k => occurs "/" k = false) ks ->
  refPath (defs_pointer ks) = ks ∧
  ∀ rootSchema,
    resolve_ref (defs_pointer ks) rootSchema
    = fold_left opt_index ks (prop rootSchema "$defs").
Proof.
  intros Hne Hall.
  assert (Hpath : refPath (defs_pointer ks) = ks).
  { unfold refPath, replace_defs_prefix, defs_pointer.
    rewrite strip_prefix_app. simpl. by apply split_on_concat. }
  split; [done|]. intros rootSchema. unfold resolve_ref. by rewrite Hpath.
Qed.

Lemma defs_pointer_resolves_witness :
  refPath "#/$defs/A/properties/b" = ["A"; "properties"; "b"] ∧
  ∀ rootSchema,
    resolve_ref "#/$defs/A/properties/b" rootSchema
    = fold_left opt_index ["A"; "properties"; "b"] (prop rootSchema "$defs").
Proof.
  apply (defs_pointer_resolves ["A"; "properties"; "b"]).
  - discriminate.
  - repeat constructor.
Defined.

(** X6.  The prefix [#/$defs/] is optional: a reference that does not
    start with it is looked up below [rootSchema.$defs] all the same, so
    [r] and [#/$defs/r] resolve alike. *)
Theorem bare_reference_resolves_alike (r : string) (rootSchema : json) :
  strip_prefix "#/$defs/" r = None ->
  refPath ("#/$defs/" +:+ r) = split_on "/" r ∧
  resolve_ref ("#/$defs/" +:+ r) rootSchema = resolve_ref r rootSchema.
Proof.
  intros Hr.
  assert (H1 : refPath ("#/$defs/" +:+ r) = split_on "/" r).
  { unfold refPath, replace_defs_prefix. by rewrite strip_prefix_app. }
  assert (H2 : refPath r = split_on "/" r).
  { unfold refPath, replace_defs_prefix. by rewrite Hr. }
  split; [done|]. unfold resolve_ref. by rewrite H1, H2.
Qed.

Lemma bare_reference_resolves_alike_witness :
  refPath "#/$defs/Y" = ["Y"] ∧
  resolve_ref "#/$defs/Y" scenario_schema = resolve_ref "Y" scenario_schema.
Proof.
  apply (bare_reference_resolves_alike "Y" scenario_schema). reflexivity.
Defined.

(** X7.  References into other parts of the document are not followed:
    a reference [#/...] that does not start with [#/$defs/] (such as
    [#/definitions/X] or [#/properties/x]) is split into ["#"] and the
    rest, hence resolves to nothing unless [rootSchema.$defs] has a
    property named ["#"]. *)
Theorem other_pointers_are_not_followed (r : string) (rootSchema : json) :
  strip_prefix "$defs/" r = None ->
  opt_index (prop rootSchema "$defs") "#" = None ->
  refPath ("#/" +:+ r) = "#" :: split_on "/" r ∧
  resolve_ref ("#/" +:+ r) rootSchema = None.
Proof.
  intros Hr Hdefs.
  assert (Hpath : refPath ("#/" +:+ r) = "#" :: split_on "/" r).
  { unfold refPath, replace_defs_prefix.
    change (strip_prefix "#/$defs/" ("#/" +:+ r)) with (strip_prefix "$defs/" r).
    rewrite Hr. reflexivity. }
  split; [done|]. unfold resolve_ref. rewrite Hpath.
  cbn [fold_left]. rewrite Hdefs. apply fold_opt_index_None.
Qed.

Lemma other_pointers_are_not_followed_witness :
  refPath "#/definitions/Y" = ["#"; "definitions"; "Y"] ∧
  resolve_ref "#/definitions/Y"
    (JObj [("definitions", JObj [("Y", JObj [("default", JNum 2)])]);
           ("$defs", JObj [("Y", JObj [("default", JNum 2)])])]) = None.
Proof.
  apply (other_pointers_are_not_followed "definitions/Y"); reflexivity.
Defined.

(** ** When the extraction returns *)







(** ** Keywords the traversal does not read *)

Lemma for_in_ext_eq body1 body2 ks e :
  (∀ k e, body1 k e = body2 k e) -> for_in body1 ks e = for_in body2 ks e.
Proof.
  intros Hb. revert e. induction ks as [|k ks IH]; intros e; simpl; [done|].
  rewrite Hb. destruct (body2 k e); simpl; auto.
Qed.

(** The root schema matters through its [$defs] only. *)
Lemma traverse_root_defs n s p root root' e :
  prop root "$defs" = prop root' "$defs" ->
  traverse n s p root e = traverse n s p root' e.
Proof.
  intros Hdefs. revert s p e. induction n as [|n IH]; intros s p e; [done|].
  destruct s as [s|]; [|done].
  destruct (null_or_not s) as [->|Hs]; [done|].
  rewrite !traverse_unfold by done.
  assert (Hprops : ∀ e1,
            visit_properties (fun s q => traverse n s q root) s p e1
            = visit_properties (fun s q => traverse n s q root') s p e1).
  { intros e1. unfold visit_properties.
    destruct (prop s "properties") as [props|]; [|done].
    destruct (truthy props); [|done].
    apply for_in_ext_eq. intros k e0. apply IH. }
  rewrite Hprops.
  destruct (visit_properties _ s p (own_default s p e)) as [e2| |]; simpl; [|done..].
  unfold visit_ref, resolve_ref, no_own_target. rewrite Hdefs.
  destruct (prop s "$ref") as [ref|]; [|done].
  destruct (truthy ref); [|done].
  destruct ref; try done.
  destruct (truthy_opt _); [|done]. apply IH.
Qed.

(** A node matters through its [default], [properties] and [$ref]. *)
Lemma traverse_node_keywords n s s' p root e :
  s ≠ JNull -> s' ≠ JNull ->
  (∀ k, k ∈ node_keywords -> prop s k = prop s' k) ->
  traverse n (Some s) p root e = traverse n (Some s') p root e.
Proof.
  intros Hs Hs' Hk. destruct n as [|n]; [done|].
  rewrite !traverse_unfold by done.
  unfold own_default, visit_properties, visit_ref.
  rewrite (Hk "default"), (Hk "properties"), (Hk "$ref");
    [done|unfold node_keywords..].
  - by right; right; left.
  - by right; left.
  - by left.
Qed.

Lemma map_fst_set_prop_present {A} k (v x : A) kvs :
  assoc k kvs = Some x -> map fst (set_prop k v kvs) = map fst kvs.
Proof.
  induction kvs as [|[k' v'] kvs IH]; simpl; [done|].
  destruct (String.eqb k k') eqn:E; simpl.
  - apply String.eqb_eq in E. by subst.
  - intros H. by rewrite IH.
Qed.

Lemma traverse_update_node ps k v n s p root e :
  k ∉ node_keywords ->
  traverse n (Some (update_node ps k v s)) p root e
  = traverse n (Some s) p root e.
Proof.
  intros Hk. revert n s p e.
  assert (Hne : ∀ k', k' ∈ node_keywords -> k ≠ k') by (by intros k' ? ->).
  induction ps as [|key ps IH]; intros n s p e.
  - destruct s as [| | | | |kvs]; try done. simpl.
    apply traverse_node_keywords; [done..|].
    intros k' Hk'. apply assoc_set_prop_ne. by apply Hne.
  - destruct s as [| | | | |kvs]; try done. simpl.
    destruct (assoc "properties" kvs) as [[| | | | |props]|] eqn:Ep; try done.
    destruct (assoc key props) as [c|] eqn:Ec; [|done].
    destruct n as [|n]; [done|].
    rewrite !traverse_unfold by done.
    unfold own_default, visit_properties, visit_ref.
    cbn [prop entries].
    rewrite (assoc_set_prop_ne "properties" "default") by done.
    rewrite (assoc_set_prop_ne "properties" "$ref") by done.
    rewrite assoc_set_prop_eq, Ep. cbn [truthy].
    unfold keys. cbn [entries].
    rewrite (map_fst_set_prop_present _ _ _ _ Ec).
    set (e1 := match assoc "default" kvs with Some d => _ | None => _ end).
    rewrite (for_in_ext_eq
               (fun key0 => traverse n (prop (JObj (set_prop key (update_node ps k v c) props)) key0)
                              (p ++ [key0]) root)
               (fun key0 => traverse n (prop (JObj props) key0) (p ++ [key0]) root));
      [done|].
    intros key0 e0. cbn [prop entries].
    destruct (decide (key0 = key)) as [->|Hkey].
    + rewrite assoc_set_prop_eq, Ec. apply IH.
    + by rewrite assoc_set_prop_ne.
Qed.

Lemma update_node_defs ps k v s :
  k ≠ "$defs" -> prop (update_node ps k v s) "$defs" = prop s "$defs".
Proof.
  intros Hk. destruct ps as [|key ps]; destruct s as [| | | | |kvs]; try done; simpl.
  - by apply assoc_set_prop_ne.
  - destruct (assoc "properties" kvs) as [[| | | | |props]|]; try done.
    destruct (assoc key props); [|done]. by apply assoc_set_prop_ne.
Qed.

(** X9.  The extraction reads [default], [properties] and [$ref] off
    the nodes and [$defs] off the root, and nothing else: setting any
    other property ([items], [allOf], [anyOf], [definitions], [type],
    ...) of the root, or of a node found below it by way of
    [properties], to any value whatever changes neither the document
    returned nor whether one is returned.  Defaults declared under such
    keywords are never extracted. *)
Theorem extraction_ignores_other_keywords (schema : json) (ps : path)
  (k : string) (v : json) (n : nat) :
  k ∉ read_keywords ->
  extractDefaultsFromSchema n (update_node ps k v schema)
  = extractDefaultsFromSchema n schema.
Proof.
  intros Hk.
  assert (Hnode : k ∉ node_keywords).
  { intros H. apply Hk. unfold read_keywords. apply elem_of_app. by left. }
  assert (Hdefs : k ≠ "$defs").
  { intros ->. apply Hk. unfold read_keywords. apply elem_of_app. right. left. }
  unfold extractDefaultsFromSchema, run_extraction.
  rewrite (traverse_root_defs n _ _ (update_node ps k v schema) schema)
    by (by apply update_node_defs).
  by rewrite traverse_update_node.
Qed.

Lemma extraction_ignores_other_keywords_witness :
  extractDefaultsFromSchema 3
    (update_node ["list"] "items" (JObj [("default", JNum 9)])
       (JObj [("properties",
                JObj [("list", JObj [("type", JStr "array")]);
                      ("x", JObj [("default", JNum 1)])])]))
  = extractDefaultsFromSchema 3
      (JObj [("properties",
               JObj [("list", JObj [("type", JStr "array")]);
                     ("x", JObj [("default", JNum 1)])])]).
Proof.
  apply (extraction_ignores_other_keywords
           (JObj [("properties",
                    JObj [("list", JObj [("type", JStr "array")]);
                          ("x", JObj [("default", JNum 1)])])])
           ["list"] "items" (JObj [("default", JNum 9)]) 3).
  vm_compute. intros H.
  repeat (apply elem_of_cons in H as [H|H]; [discriminate H|]).
  by apply elem_of_nil in H.
Defined.

(** ** What a visit leaves alone *)

Lemma unrelated_extend p r q : unrelated p q -> unrelated (p ++ r) q.
Proof.
  intros [H1 H2]. split.
  - intros H. apply H1. etrans; [|exact H]. by apply prefix_app_r.
  - intros H.
    destruct (prefix_weak_total p q (p ++ r)) as [Hpq|Hqp];
      [by apply prefix_app_r|done|by apply H1|by apply H2].
Qed.

Lemma replay_frame ws obj q w :
  (∀ q' d, (q', d) ∈ ws -> unrelated q' q) ->
  get_at (JObj obj) q = Some w ->
  get_at (JObj (replay ws obj)) q = Some w.
Proof.
  revert obj. induction ws as [|[q' d] ws IH]; intros obj Hws Hq; [done|].
  simpl. apply IH.
  - intros q2 d2 Hin. apply (Hws q2 d2). by right.
  - apply setDefault_frame; [|done]. apply (Hws q' d). left.
Qed.

(** X10.  A visit [traverse(schema, path, rootSchema)] that completes
    writes at [path] and below it only: whatever the [defaults] object
    held on a path unrelated to [path] (neither above nor below it) is
    still there afterwards. *)
Theorem traverse_keeps_unrelated_paths (rootSchema s : json) (n : nat)
  (p q : path) (e e' : env) (w : json) :
  traverse n (Some s) p rootSchema e = Done e' ->
  unrelated p q ->
  get_at (JObj (defaults e)) q = Some w ->
  get_at (JObj (defaults e')) q = Some w.
Proof.
  intros H Hun Hq.
  destruct (traverse_writes _ _ _ _ _ _ H) as (ws & -> & Hws).
  apply replay_frame; [|done].
  intros q' d Hin. apply Hws, declares_prefix in Hin as [r ->].
  by apply unrelated_extend.
Qed.

Lemma traverse_keeps_unrelated_paths_witness :
  get_at (JObj [("a", JObj [("x", JNum 1)]); ("b", JObj [("y", JNum 2)])])
    ["a"; "x"] = Some (JNum 1).
Proof.
  apply (traverse_keeps_unrelated_paths
           scenario_schema
           (JObj [("properties", JObj [("y", JObj [("default", JNum 2)])])])
           2 ["b"] ["a"; "x"]
           (Env [("a", JObj [("x", JNum 1)])] [])
           (Env [("a", JObj [("x", JNum 1)]); ("b", JObj [("y", JNum 2)])] [])
           (JNum 1)).
  - vm_compute. reflexivity.
  - split; intros [r Hr]; discriminate Hr.
  - reflexivity.
Defined.

(** ** What a visit reports *)

Lemma reports_unresolved_child rootSchema s c line :
  visits rootSchema s c ->
  reports_unresolved rootSchema c line -> reports_unresolved rootSchema s line.
Proof.
  intros Hv (c' & r & x & Hreach & H). exists c', r, x. split; [|done].
  by eapply rtc_l.
Qed.

Lemma modelled_refs_child rootSchema s c :
  visits rootSchema s c -> modelled_refs rootSchema s -> modelled_refs rootSchema c.
Proof. intros Hv Hm c' r Hreach. apply Hm. by eapply rtc_l. Qed.

Lemma console_no_own_target r rootSchema e :
  console (no_own_target r rootSchema e) = console e ++ report_lines r rootSchema.
Proof.
  unfold no_own_target, report_lines.
  destruct (walk_ref _ _); simpl; by rewrite ?app_nil_r.
Qed.

(** The lines of the branch for references without a truthy own target,
    when the reference is within the model. *)
Lemma report_lines_spec r rootSchema line :
  modelled_ref r rootSchema ->
  truthy_opt (resolve_ref r rootSchema) = false ->
  line ∈ report_lines r rootSchema ↔
  ∃ x, walk_ref (refPath r) (prop rootSchema "$defs") = Own x ∧
       truthy_opt x = false ∧ line = not_found r.
Proof.
  unfold modelled_ref, report_lines. intros Hm Hres.
  destruct (walk_ref _ _) as [x| |] eqn:Hwalk.
  - rewrite list_elem_of_singleton. split.
    + intros ->. exists x. split; [done|]. split; [|done].
      by rewrite <-(walk_ref_Own _ _ _ Hwalk).
    + by intros (? & _ & _ & ->).
  - split; [intros H; by apply elem_of_nil in H|by intros (? & ? & _)].
  - done.
Qed.

Lemma for_in_reported rootSchema n props p ks e e' :
  (∀ c q e e', modelled_refs rootSchema c ->
     traverse n (Some c) q rootSchema e = Done e' ->
     console e' = console e ++ reported n rootSchema c ∧
     ∀ line, line ∈ reported n rootSchema c ↔
             reports_unresolved rootSchema c line) ->
  (∀ key c, key ∈ ks -> prop props key = Some c -> modelled_refs rootSchema c) ->
  for_in (fun key => traverse n (prop props key) (p ++ [key]) rootSchema) ks e
    = Done e' ->
  let ls := flat_map (fun key =>
                        match prop props key with
                        | Some c => reported n rootSchema c
                        | None => []
                        end) ks in
  console e' = console e ++ ls ∧
  ∀ line, line ∈ ls ↔
    ∃ key c, key ∈ ks ∧ prop props key = Some c ∧
             reports_unresolved rootSchema c line.
Proof.
  intros IH. revert e. induction ks as [|k ks IHks]; intros e Hm; simpl.
  - intros [= <-]. split; [by rewrite app_nil_r|]. intros line. split.
    + intros H. by apply elem_of_nil in H.
    + intros (key & c & H & _). by apply elem_of_nil in H.
  - intros H. apply bind_Done in H as (e1 & H1 & H2).
    destruct (traverse_Done_Some _ _ _ _ _ _ H1) as (c & Hc & _).
    rewrite Hc in H1 |- *. apply IH in H1 as (Hl1 & Hw1).
    2:{ apply (Hm k c); [left|done]. }
    apply IHks in H2 as (Hl2 & Hw2).
    2:{ intros key c' Hin. apply Hm. by right. }
    split.
    + by rewrite Hl2, Hl1, app_assoc.
    + intros line. rewrite elem_of_app, Hw1, Hw2. split.
      * intros [Hr|(key & c' & Hin & Hp & Hr)].
        -- exists k, c. split; [left|done].
        -- exists key, c'. split; [by right|done].
      * intros (key & c' & Hin & Hp & Hr).
        apply elem_of_cons in Hin as [->|Hin].
        -- left. congruence.
        -- right. by exists key, c'.
Qed.

(** X11.  What a completed visit sends to [console.error], when every
    reference it meets is within the model (none reads on from an
    inherited member, none reads a foreign name off an array, string,
    number or boolean): the lines logged before stay, and the lines
    added are one ["Reference not found: <$ref>"] for each visit of a
    node whose [$ref] ends, through own properties, in nothing or in a
    falsy value, in the order of the traversal.  A line is added if and
    only if it reports such a reference of a node the traversal
    reaches; nothing is logged for a reference that resolves, be it to
    an own property or to a member inherited from [Object.prototype]. *)
Theorem traverse_reports_only_unresolved (rootSchema s : json) (n : nat)
  (p : path) (e e' : env) :
  modelled_refs rootSchema s ->
  traverse n (Some s) p rootSchema e = Done e' ->
  console e' = console e ++ reported n rootSchema s ∧
  ∀ line, line ∈ reported n rootSchema s ↔ reports_unresolved rootSchema s line.
Proof.
  revert s p e e'. induction n as [|n IH]; intros s p e e' Hm H; [done|].
  destruct (traverse_Done_Some _ _ _ _ _ _ H) as (? & [= <-] & Hs).
  rewrite traverse_unfold in H by done.
  apply bind_Done in H as (e2 & Hprops & Href).
  assert (H0 : console (own_default s p e) = console e).
  { unfold own_default. by destruct (prop s "default"). }
  cbn [reported].
  set (ls1 := match prop s "properties" with Some _ => _ | None => _ end).
  set (ls2 := match prop s "$ref" with Some _ => _ | None => _ end).
  (* the properties *)
  assert (console e2 = console e ++ ls1 ∧
          ∀ line, line ∈ ls1 ↔
            ∃ props key c, prop s "properties" = Some props ∧
              truthy props = true ∧ key ∈ keys props ∧
              prop props key = Some c ∧
              reports_unresolved rootSchema c line)
    as (Hl1 & Hw1).
  { revert Hprops. unfold visit_properties, ls1.
    destruct (prop s "properties") as [props|] eqn:Ep.
    2:{ intros [= <-]. split; [by rewrite app_nil_r|]. intros line. split.
        - intros H. by apply elem_of_nil in H.
        - by intros (? & ? & ? & ? & _). }
    destruct (truthy props) eqn:Et.
    2:{ intros [= <-]. split; [by rewrite app_nil_r|]. intros line. split.
        - intros H. by apply elem_of_nil in H.
        - intros (? & ? & ? & [= <-] & ? & _). congruence. }
    intros H. apply for_in_reported in H as (Hl1 & Hw1); [|exact IH|].
    2:{ intros key c Hin Hc. eapply modelled_refs_child; [|exact Hm].
        by eapply visits_property. }
    split; [by rewrite Hl1, H0|]. intros line. rewrite Hw1. split.
    - intros (key & c & ? & ? & ?). by exists props, key, c.
    - intros (? & key & c & [= <-] & ? & ? & ? & ?). by exists key, c. }
  (* the reference *)
  assert (console e' = console e2 ++ ls2 ∧
          ∀ line, line ∈ ls2 ↔
            ∃ r, prop s "$ref" = Some (JStr r) ∧ truthy (JStr r) = true ∧
              ((∃ x, walk_ref (refPath r) (prop rootSchema "$defs") = Own x ∧
                     truthy_opt x = false ∧ line = not_found r) ∨
               (∃ t, resolve_ref r rootSchema = Some t ∧ truthy t = true ∧
                     reports_unresolved rootSchema t line)))
    as (Hl2 & Hw2).
  { revert Href. unfold visit_ref, ls2.
    assert (Hnone : ∀ e0, console e' = console e0 ->
              (∀ r, prop s "$ref" = Some (JStr r) -> truthy (JStr r) = true ->
                 False) ->
              console e' = console e0 ++ [] ∧
              ∀ line, line ∈ @nil string ↔
                ∃ r, prop s "$ref" = Some (JStr r) ∧ truthy (JStr r) = true ∧
                  ((∃ x, walk_ref (refPath r) (prop rootSchema "$defs") = Own x ∧
                         truthy_opt x = false ∧ line = not_found r) ∨
                   (∃ t, resolve_ref r rootSchema = Some t ∧ truthy t = true ∧
                         reports_unresolved rootSchema t line))).
    { intros e0 He0 Hno. split; [by rewrite app_nil_r|]. intros line. split.
      - intros H. by apply elem_of_nil in H.
      - intros (r & ? & ? & _). exfalso. eauto. }
    destruct (prop s "$ref") as [ref|] eqn:Er.
    2:{ intros [= <-]. apply Hnone; [done|]. by intros. }
    destruct ref as [| | |r| |];
      try (destruct (truthy _); [done|]; intros [= <-]; apply Hnone; [done|];
           by intros).
    destruct (truthy (JStr r)) eqn:Et.
    2:{ intros [= <-]. apply Hnone; [done|]. intros r' [= <-]. congruence. }
    assert (Hmr : modelled_ref r rootSchema) by (by apply (Hm s r)).
    assert (Hmiss : truthy_opt (resolve_ref r rootSchema) = false ->
              Done (no_own_target r rootSchema e2) = Done e' ->
              console e' = console e2 ++ report_lines r rootSchema ∧
              ∀ line, line ∈ report_lines r rootSchema ↔
                ∃ r0, Some (JStr r) = Some (JStr r0) ∧ truthy (JStr r0) = true ∧
                  ((∃ x, walk_ref (refPath r0) (prop rootSchema "$defs") = Own x ∧
                         truthy_opt x = false ∧ line = not_found r0) ∨
                   (∃ t, resolve_ref r0 rootSchema = Some t ∧ truthy t = true ∧
                         reports_unresolved rootSchema t line))).
    { intros Hres [= <-]. split; [apply console_no_own_target|]. intros line.
      rewrite (report_lines_spec _ _ _ Hmr Hres). split.
      - intros Hx. exists r. split; [done|]. split; [exact Et|]. by left.
      - intros (r0 & [= <-] & _ & [Hx|(t & Ht & Htt & _)]); [done|].
        rewrite Ht in Hres. simpl in Hres. congruence. }
    destruct (resolve_ref r rootSchema) as [t|] eqn:Eres; simpl.
    2:{ by apply Hmiss. }
    destruct (truthy t) eqn:Ett.
    2:{ by apply Hmiss. }
    intros H. apply IH in H as (Hl2 & Hw2).
    2:{ eapply modelled_refs_child; [|exact Hm]. by eapply visits_ref. }
    split; [done|]. intros line. rewrite Hw2. split.
    - intros ?. exists r. split; [done|]. split; [done|]. right. by exists t.
    - intros (r0 & [= <-] & _ & [(x & Hwalk & Hx & _)|(t0 & Ht0 & _ & Hrep)]).
      + apply walk_ref_Own in Hwalk. rewrite Eres in Hwalk. subst x.
        simpl in Hx. congruence.
      + congruence. }
  split.
  - by rewrite Hl2, Hl1, app_assoc.
  - intros line. rewrite elem_of_app, Hw1, Hw2. split.
    + intros [(props & key & c & Hp & Ht & Hk & Hc & Hrep)
             |(r & Hr & Ht & [(x & Hwalk & Hx & ->)|(t & Hres & Htt & Hrep)])].
      * eapply reports_unresolved_child; [|exact Hrep]. by eapply visits_property.
      * by exists s, r, x.
      * eapply reports_unresolved_child; [|exact Hrep]. by eapply visits_ref.
    + intros (c & r & x & Hreach & Hr & Ht & Hwalk & Hx & ->).
      apply rtc_inv in Hreach as [->|(c1 & Hstep & Hreach)].
      * right. exists r. split; [done|]. split; [done|]. left. by exists x.
      * assert (Hrep : reports_unresolved rootSchema c1 (not_found r))
          by (by exists c, r, x).
        destruct Hstep as [props key c1 Hp Htp Hk Hc|r1 t Hr1 Ht1 Hres1 Htt].
        -- left. by exists props, key, c1.
        -- right. exists r1. split; [done|]. split; [done|]. right. by exists t.
Qed.

Lemma dangling_modelled : modelled_refs dangling_schema dangling_schema.
Proof.
  intros c r Hreach Hr Ht.
  assert (Hc : c ∈ [dangling_schema;
                    JObj [("default", JNum 1)];
                    JObj [("$ref", JStr "#/$defs/Missing")];
                    JObj [("default", JNum 3)]]).
  { apply rtc_inv in Hreach as [<-|(c1 & Hstep & Hreach)]; [left|].
    apply visits_children in Hstep. vm_compute in Hstep.
    repeat (apply elem_of_cons in Hstep as [->|Hstep];
            [apply rtc_inv in Hreach as [<-|(c2 & Hstep2 & _)];
             [by repeat constructor
             |apply visits_children in Hstep2; vm_compute in Hstep2;
              by apply elem_of_nil in Hstep2]
            |]).
    by apply elem_of_nil in Hstep. }
  repeat (apply elem_of_cons in Hc as [->|Hc]; [try discriminate Hr|]).
  - injection Hr as <-. unfold modelled_ref. vm_compute. discriminate.
  - by apply elem_of_nil in Hc.
Qed.

Lemma traverse_reports_only_unresolved_witness :
  ["Reference not found: #/$defs/Missing"]
    = [] ++ reported 3 dangling_schema dangling_schema ∧
  ∀ line, line ∈ reported 3 dangling_schema dangling_schema ↔
          reports_unresolved dangling_schema dangling_schema line.
Proof.
  apply (traverse_reports_only_unresolved dangling_schema dangling_schema 3 []
           (Env [] [])
           (Env [("a", JNum 1); ("c", JNum 3)]
              ["Reference not found: #/$defs/Missing"])).
  - exact dangling_modelled.
  - vm_compute. reflexivity.
Defined.

(** ** The component: query results, the flag, the requests *)

(** X12.  When a result of the configuration query arrives, the first
    effect puts the configuration of that result into the form, whatever
    the form held: edits not saved by then are dropped.  The requests in
    flight are untouched, and the flag ends up as the comparison of that
    configuration with itself. *)
Theorem query_result_replaces_form (st : State) (c : AssistantConfig) :
  formData (load_result c st) = config c ∧
  data (load_result c st) = Some c ∧
  isLoadingConfig (load_result c st) = false ∧
  inFlight (load_result c st) = inFlight st ∧
  ∀ x, config c = Some x -> truthy x = true ->
    isDirty (load_result c st) = has_changes x x.
Proof.
  unfold load_result.
  destruct (dirty_effect_fields (with_data c st)) as (_ & Hd1 & Hl1 & Hi1 & _).
  destruct (dirty_effect_fields
              (with_formData (config c) (dirty_effect (with_data c st))))
    as (Hf2 & Hd2 & Hl2 & Hi2 & _).
  cbn [formData data isLoadingConfig inFlight with_formData with_data] in *.
  split; [done|]. split; [congruence|]. split; [congruence|].
  split; [congruence|].
  intros x Hx Ht. rewrite dirty_effect_isDirty.
  unfold saved_config.
  cbn [formData data isLoadingConfig inFlight with_formData with_data].
  rewrite Hd1. simpl. by rewrite Hx, Ht.
Qed.

Lemma query_result_replaces_form_witness :
  formData (load_result sample_config edited_state) = Some (JObj [("x", JNum 1)]) ∧
  data (load_result sample_config edited_state) = Some sample_config ∧
  isLoadingConfig (load_result sample_config edited_state) = false ∧
  inFlight (load_result sample_config edited_state) = inFlight edited_state ∧
  isDirty (load_result sample_config edited_state)
    = has_changes (JObj [("x", JNum 1)]) (JObj [("x", JNum 1)]).
Proof.
  destruct (query_result_replaces_form edited_state sample_config)
    as (H1 & H2 & H3 & H4 & H5).
  split; [exact H1|]. split; [exact H2|]. split; [exact H3|].
  split; [exact H4|]. apply H5; reflexivity.
Defined.

(** X13.  The flag is never up without a reason: in every state the
    component can reach, if [isDirty] is true while a saved
    configuration and form data are both there, the two do differ
    ([deepDiff] has keys). *)
Theorem dirty_flag_is_never_stale (st : State) (c f : json) :
  reachable st ->
  isDirty st = true ->
  saved_config st = Some c -> formData st = Some f ->
  truthy c = true -> truthy f = true ->
  has_changes c f = true.
Proof. intros Hreach Hd Hc Hf Htc Htf. by apply (reachable_consistent st Hreach). Qed.

Lemma dirty_flag_is_never_stale_witness :
  has_changes (JObj [("x", JNum 1)]) (JObj [("x", JNum 2)]) = true.
Proof.
  apply (dirty_flag_is_never_stale edited_state).
  - apply edited_state_reachable.
  - apply edited_state_dirty.
  - reflexivity.
  - reflexivity.
  - reflexivity.
  - reflexivity.
Defined.

Lemma setFormData_None_isDirty st st' :
  setFormData None st st' -> isDirty st' = isDirty st.
Proof.
  intros [|_]; [|done]. rewrite dirty_effect_isDirty. simpl.
  by destruct (saved_config _).
Qed.

(** X14.  The effect recomputes the flag only while form data is there.
    So when the form reports [undefined] data on a dirty form, the flag
    stays up, the Save button stays enabled, and a click on it sends
    the empty object [{}] as the configuration ([formData ?? {}]) and
    makes it the form data. *)
Theorem cleared_form_is_saved_as_empty (st st1 st2 : State)
  (c : AssistantConfig) :
  data st = Some c -> isDirty st = true ->
  onChange None st st1 -> save st1 st2 ->
  isDirty st1 = true ∧ formData st1 = None ∧
  inFlight st2 = inFlight st ++ [update_request st c (Some (JObj []))] ∧
  formData st2 = Some (JObj []).
Proof.
  intros Hc Hd Hchange Hsave.
  destruct (setFormData_fields _ _ _ Hchange) as (Hf1 & Hd1 & _ & Hi1 & Hid1).
  apply setFormData_None_isDirty in Hchange.
  split; [congruence|]. split; [done|].
  unfold save, form_or_empty in Hsave. rewrite Hf1 in Hsave.
  destruct Hsave as [Hnone|c' st' Hc' Hset]; [congruence|].
  assert (c' = c) as -> by congruence.
  destruct (setFormData_fields _ _ _ Hset) as (Hf2 & _ & _ & Hi2 & _).
  simpl. unfold update_request. by rewrite Hi2, Hi1, Hid1.
Qed.

Lemma cleared_form_is_saved_as_empty_witness :
  isDirty (with_formData None edited_state) = true ∧
  formData (with_formData None edited_state) = None ∧
  inFlight
    (with_inFlight
       [update_request edited_state sample_config (Some (JObj []))]
       (dirty_effect (with_formData (Some (JObj [])) edited_state)))
  = inFlight edited_state ++
      [update_request edited_state sample_config (Some (JObj []))] ∧
  formData
    (with_inFlight
       [update_request edited_state sample_config (Some (JObj []))]
       (dirty_effect (with_formData (Some (JObj [])) edited_state)))
  = Some (JObj []).
Proof.
  apply (cleared_form_is_saved_as_empty edited_state
           (with_formData None edited_state) _ sample_config).
  - reflexivity.
  - apply edited_state_dirty.
  - apply (setFormData_rerender None edited_state).
  - apply (handleChange_sent _ (with_formData None edited_state) sample_config
             (dirty_effect (with_formData (Some (JObj [])) edited_state)));
      [reflexivity|].
    apply (setFormData_rerender (Some (JObj [])) (with_formData None edited_state)).
Defined.

(** X15.  An edit made while a save is under way is flagged clean when
    the save succeeds: [handleChange] ends with [setDirty(false)]
    without comparing anything, so after [handleChange(v)], a change of
    the form to [f] and the fulfilment of that request, the form holds
    [f], the saved configuration is the one from before, and [isDirty]
    is false, whether or not the two differ. *)
Theorem edit_during_save_is_flagged_clean (st st1 st2 : State)
  (c : AssistantConfig) (v : option json) (f result : json) :
  data st = Some c ->
  handleChange v st st1 ->
  onChange (Some f) st1 st2 ->
  inFlight st2 = inFlight st ++ [update_request st c v] ∧
  formData (handleChange_resume (length (inFlight st)) (Fulfilled result) st2)
    = Some f ∧
  isDirty (handleChange_resume (length (inFlight st)) (Fulfilled result) st2)
    = false ∧
  data (handleChange_resume (length (inFlight st)) (Fulfilled result) st2)
    = Some c ∧
  inFlight (handleChange_resume (length (inFlight st)) (Fulfilled result) st2)
    = inFlight st.
Proof.
  intros Hc Hsent Hchange.
  destruct Hsent as [Hnone|c' st' Hc' Hset]; [congruence|].
  assert (c' = c) as -> by congruence.
  destruct (setFormData_fields _ _ _ Hset) as (_ & Hd1 & _ & Hi1 & _).
  destruct (setFormData_fields _ _ _ Hchange) as (Hf2 & Hd2 & _ & Hi2 & _).
  simpl in Hd2, Hi2.
  assert (Hin : inFlight st2 = inFlight st ++ [update_request st c v]).
  { rewrite Hi2, Hi1. done. }
  split; [done|].
  destruct (handleChange_resume_fields (length (inFlight st)) (Fulfilled result) st2)
    as (-> & -> & _ & ->).
  split; [done|]. split; [done|]. split; [congruence|].
  rewrite Hin. by rewrite delete_middle, app_nil_r.
Qed.

Lemma edit_during_save_is_flagged_clean_witness :
  inFlight
    (dirty_effect
       (with_formData (Some (JObj [("x", JNum 3)]))
          (with_inFlight
             [update_request edited_state sample_config
                (Some (JObj [("x", JNum 2)]))]
             edited_state)))
  = inFlight edited_state ++
      [update_request edited_state sample_config (Some (JObj [("x", JNum 2)]))] ∧
  formData
    (handleChange_resume (length (inFlight edited_state)) (Fulfilled JNull)
       (dirty_effect
          (with_formData (Some (JObj [("x", JNum 3)]))
             (with_inFlight
                [update_request edited_state sample_config
                   (Some (JObj [("x", JNum 2)]))]
                edited_state))))
  = Some (JObj [("x", JNum 3)]) ∧
  isDirty
    (handleChange_resume (length (inFlight edited_state)) (Fulfilled JNull)
       (dirty_effect
          (with_formData (Some (JObj [("x", JNum 3)]))
             (with_inFlight
                [update_request edited_state sample_config
                   (Some (JObj [("x", JNum 2)]))]
                edited_state))))
  = false ∧
  data
    (handleChange_resume (length (inFlight edited_state)) (Fulfilled JNull)
       (dirty_effect
          (with_formData (Some (JObj [("x", JNum 3)]))
             (with_inFlight
                [update_request edited_state sample_config
                   (Some (JObj [("x", JNum 2)]))]
                edited_state))))
  = Some sample_config ∧
  inFlight
    (handleChange_resume (length (inFlight edited_state)) (Fulfilled JNull)
       (dirty_effect
          (with_formData (Some (JObj [("x", JNum 3)]))
             (with_inFlight
                [update_request edited_state sample_config
                   (Some (JObj [("x", JNum 2)]))]
                edited_state))))
  = inFlight edited_state.
Proof.
  apply (edit_during_save_is_flagged_clean edited_state
           (with_inFlight
              [update_request edited_state sample_config
                 (Some (JObj [("x", JNum 2)]))]
              edited_state)
           _ sample_config (Some (JObj [("x", JNum 2)]))
           (JObj [("x", JNum 3)]) JNull).
  - reflexivity.
  - apply (handleChange_sent _ edited_state sample_config edited_state);
      [reflexivity|].
    by apply setFormData_bail_out.
  - apply setFormData_rerender.
Defined.

(** ** The UI hints handed to the form *)

Lemma assoc_None_keys {A} k (kvs : list (string * A)) :
  k ∉ map fst kvs -> assoc k kvs = None.
Proof.
  intros Hk. destruct (assoc k kvs) as [x|] eqn:E; [|done].
  by apply assoc_Some_keys in E.
Qed.

(** Copying properties with distinct names: a copied name reads as the
    copy, every other name as before. *)
Lemma assoc_assign k target src :
  NoDup (map fst src) ->
  assoc k (assign target src)
  = match assoc k src with
    | Some x => Some x
    | None => assoc k target
    end.
Proof.
  unfold assign. revert target.
  induction src as [|[k0 v0] src IH]; intros target Hnd; [done|].
  apply NoDup_cons in Hnd as [Hk0 Hnd]. cbn [fold_left fst snd map] in *.
  rewrite IH by done. simpl.
  destruct (String.eqb k k0) eqn:E.
  - apply String.eqb_eq in E. subst k0.
    by rewrite (assoc_None_keys _ _ Hk0), assoc_set_prop_eq.
  - destruct (assoc k src); [done|]. apply assoc_set_prop_ne.
    intros ->. by rewrite String.eqb_refl in E.
Qed.

(** X16.  In the [uiSchema] handed to the form the component's
    ['ui:submitButtonOptions'] always win (the form's own submit button
    is not rendered, whatever the service's hints say), the service's
    ['ui:title'] replaces the component's title when there is one, and
    every other hint of the service is passed on as it is. *)
Theorem form_uiSchema_precedence (c : AssistantConfig) (dirty : bool) :
  NoDup (map fst (service_hints c)) ->
  assoc "ui:submitButtonOptions" (form_uiSchema c dirty)
    = Some (submitButtonOptions dirty) ∧
  assoc "ui:title" (form_uiSchema c dirty)
    = Some (default default_title (assoc "ui:title" (service_hints c))) ∧
  ∀ k, k ≠ "ui:submitButtonOptions" -> k ≠ "ui:title" ->
    assoc k (form_uiSchema c dirty) = assoc k (service_hints c).
Proof.
  intros Hnd. unfold form_uiSchema. split; [apply assoc_set_prop_eq|]. split.
  - rewrite assoc_set_prop_ne by done. rewrite assoc_assign by done.
    by destruct (assoc "ui:title" (service_hints c)).
  - intros k Hk1 Hk2. rewrite assoc_set_prop_ne by done.
    rewrite assoc_assign by done.
    destruct (assoc k (service_hints c)); [done|]. simpl.
    destruct (String.eqb k "ui:title") eqn:E; [|done].
    by apply String.eqb_eq in E.
Qed.

Lemma form_uiSchema_precedence_witness :
  let c := {| config := Some (JObj [("x", JNum 1)]);
              jsonSchema := Some scenario_schema;
              uiSchema := Some (JObj [("ui:submitButtonOptions", JObj []);
                                      ("ui:title", JStr "Settings");
                                      ("x", JObj [("ui:widget", JStr "textarea")])]) |} in
  assoc "ui:submitButtonOptions" (form_uiSchema c true)
    = Some (submitButtonOptions true) ∧
  assoc "ui:title" (form_uiSchema c true)
    = Some (default default_title (assoc "ui:title" (service_hints c))) ∧
  ∀ k, k ≠ "ui:submitButtonOptions" -> k ≠ "ui:title" ->
    assoc k (form_uiSchema c true) = assoc k (service_hints c).
Proof.
  intros c. apply (form_uiSchema_precedence c true).
  vm_compute. repeat constructor;
    rewrite ?elem_of_cons, ?elem_of_nil; intros H; repeat destruct H as [H|H];
    discriminate H || exact H.
Defined.

(** ** [setDefault] on the store: what the slot holds *)

Lemma store_keeps_dom h cur k v l :
  is_Some (h !! l) -> is_Some (Store.store h cur k v !! l).
Proof.
  intros Hl. unfold Store.store.
  destruct (h !! cur) as [[props|elems]|] eqn:E; [|done..].
  destruct (decide (l = cur)) as [->|Hne].
  - rewrite lookup_insert_eq. by eexists.
  - by rewrite lookup_insert_ne.
Qed.

(** X17.  [setDefault] stores the value itself, not a copy of it: after
    [setDefault(obj, path, value)] on an ordinary object with a
    non-empty path without a segment [__proto__], following the path
    from [obj] leads to the very
    value passed in, so a default that is an object of the schema is
    shared between the schema and the document.  Every level above the
    slot, in contrast, is an object that did not exist before the
    call. *)
Theorem setDefault_stores_the_value_itself (h : Store.heap) (cur : Store.loc)
  (props : list (string * Store.value)) (p : path) (v : Store.value) :
  h !! cur = Some (Store.Plain props) ->
  p ≠ [] ->
  "__proto__" ∉ p ->
  Store.lookup_path (Store.setDefault h cur p v) (Store.VRef cur) p = Some v ∧
  ∀ p', p' ≠ [] -> p' `prefix_of` p -> p' ≠ p ->
    ∃ l, Store.lookup_path (Store.setDefault h cur p v) (Store.VRef cur) p'
         = Some (Store.VRef l) ∧
         h !! l = None.
Proof.
  intros Hcur0 Hp0 _. revert h cur props Hcur0 Hp0.
  induction p as [|k rest IH]; intros h cur props Hcur Hp; [done|].
  destruct (decide (rest = [])) as [->|Hrest].
  { split.
    - cbn [Store.setDefault Store.lookup_path Store.entries].
      rewrite (store_lookup_plain _ _ _ _ _ Hcur). by rewrite assoc_set_prop_eq.
    - intros [|k' p''] Hne Hpre Hneq; [done|].
      assert (k' = k) as -> by (by eapply prefix_cons_inv_1).
      apply prefix_cons_inv_2, prefix_nil_inv in Hpre. by subst. }
  rewrite setDefault_store_step by done. cbv zeta.
  set (l0 := fresh (dom h)).
  set (copy := Store.Plain _).
  set (h2 := Store.store (<[l0:=copy]> h) cur k (Store.VRef l0)).
  assert (Hfresh : h !! l0 = None).
  { apply not_elem_of_dom. apply is_fresh. }
  assert (Hl0 : cur ≠ l0) by congruence.
  assert (Hcur2 : h2 !! cur = Some (Store.Plain (set_prop k (Store.VRef l0) props))).
  { apply store_lookup_plain. by rewrite lookup_insert_ne. }
  assert (Hl2 : h2 !! l0 = Some copy).
  { unfold h2. rewrite store_lookup_other by done. by rewrite lookup_insert_eq. }
  assert (Hroot : Store.setDefault h2 l0 rest v !! cur
                  = Some (Store.Plain (set_prop k (Store.VRef l0) props))).
  { rewrite setDefault_lookup_other; [done|done|by eexists]. }
  destruct (IH h2 l0 _ Hl2 Hrest) as [Hread Hlevels].
  assert (Hstep : ∀ q, Store.lookup_path (Store.setDefault h2 l0 rest v)
                         (Store.VRef cur) (k :: q)
                       = Store.lookup_path (Store.setDefault h2 l0 rest v)
                           (Store.VRef l0) q).
  { intros q. cbn [Store.lookup_path Store.entries]. rewrite Hroot.
    by rewrite assoc_set_prop_eq. }
  split.
  - by rewrite Hstep.
  - intros [|k' p''] Hne Hpre Hneq; [done|].
    assert (k' = k) as -> by (by eapply prefix_cons_inv_1).
    apply prefix_cons_inv_2 in Hpre. rewrite Hstep.
    destruct p'' as [|k2 p''].
    + by exists l0.
    + destruct (Hlevels (k2 :: p'')) as (l & Hl & Hnew); [done|done|congruence|].
      exists l. split; [done|].
      destruct (h !! l) as [c|] eqn:E; [|done]. exfalso.
      assert (Hsome : is_Some (h2 !! l)).
      { apply store_keeps_dom. destruct (decide (l = l0)) as [->|Hne'].
        - rewrite lookup_insert_eq. by eexists.
        - rewrite lookup_insert_ne by done. by eexists. }
      rewrite Hnew in Hsome. by destruct Hsome.
Qed.

Lemma setDefault_stores_the_value_itself_witness :
  Store.lookup_path
    (Store.setDefault Store.sample_heap 1%positive ["a"; "d"]
       (Store.VRef 3%positive))
    (Store.VRef 1%positive) ["a"; "d"] = Some (Store.VRef 3%positive) ∧
  ∀ p', p' ≠ [] -> p' `prefix_of` ["a"; "d"] -> p' ≠ ["a"; "d"] ->
    ∃ l, Store.lookup_path
           (Store.setDefault Store.sample_heap 1%positive ["a"; "d"]
              (Store.VRef 3%positive))
           (Store.VRef 1%positive) p' = Some (Store.VRef l) ∧
         Store.sample_heap !! l = None.
Proof.
  apply (setDefault_stores_the_value_itself Store.sample_heap 1%positive
           [("a", Store.VRef 2%positive)] ["a"; "d"] (Store.VRef 3%positive)).
  - reflexivity.
  - discriminate.
  - intros H. repeat (apply elem_of_cons in H as [H|H]; [discriminate H|]).
    by apply elem_of_nil in H.
Defined.

(** ** The [defaults] of the component *)


